(** * Shallow embedding of the blizzconv DUN parser and dungeon compositor

    Sources embedded:
    - configs/dun/dun.go : [New], [Parse] (full-stream variant), [GetLevelName]
    - unnamed/part_000   : [dunmini.Parse] (fixed-size variant), [Image],
                           [GetPillarRect], [getArchID] and the arch constants.

    Go [int] is modelled as [Z]; every quantity involved (grid coordinates
    below 112, 16-bit values, pixel sizes) stays far from the 64-bit range.
    A Go map[string]int is a [gmap string Z]; a [Dungeon] is the 112x112
    array of such maps, modelled as a function of (col, row) whose accesses
    are guarded by the array bounds (an access outside them is a runtime
    panic in Go). *)

From Stdlib Require Import ZArith Lia List String Ascii Bool.
From stdpp Require Import base gmap strings list.
Import ListNotations.
Open Scope Z_scope.

(** ** Errors, panics and the input stream *)

(** Errors returned by the code: [io.EOF], [io.ErrUnexpectedEOF] (both from
    [binary.Read]) and errors produced by [fmt.Errorf] or by collaborators. *)
Inductive goerror :=
| EOF
| ErrUnexpectedEOF
| Errorf (msg : string).

Definition isEOF (e : goerror) : bool :=
  match e with EOF => true | _ => false end.

(** The site of a runtime panic (index out of range). *)
Inductive psite :=
| PSquares   (* squares[squareNumPlus1-1] *)
| PGrid      (* dungeon[col][row] *)
| PBuffer    (* squareIDsPlus1[k] *)
| PPillars   (* pillars[pillarNum] *)
| PArches.   (* arches[archID] *)

Definition byteZ (b : Byte.byte) : Z := Z.of_nat (Byte.to_nat b).

(** [binary.Read(fr, binary.LittleEndian, &x)] for an [uint16 x]: it uses
    [io.ReadFull], which yields [io.EOF] when no byte is left and
    [io.ErrUnexpectedEOF] when the value is cut short. *)
Definition readU16 (s : list Byte.byte) : goerror + (Z * list Byte.byte) :=
  match s with
  | [] => inl EOF
  | [_] => inl ErrUnexpectedEOF
  | b0 :: b1 :: s' => inr (byteZ b0 + 256 * byteZ b1, s')
  end.

(** [binary.Read(fr, binary.LittleEndian, &tmp)] for [var tmp [2]uint16]. *)
Definition readHeader (s : list Byte.byte) : goerror + (Z * Z * list Byte.byte) :=
  match s with
  | [] => inl EOF
  | b0 :: b1 :: b2 :: b3 :: s' =>
      inr (byteZ b0 + 256 * byteZ b1, byteZ b2 + 256 * byteZ b3, s')
  | _ => inl ErrUnexpectedEOF
  end.

(** ** The dungeon grid *)

Definition ColMax : Z := 112.
Definition RowMax : Z := 112.

(** [type Dungeon [ColMax][RowMax]map[string]int] *)
Definition Dungeon := Z -> Z -> gmap string Z.

(** [New]: every cell holds a fresh empty map. *)
Definition New : Dungeon := fun _ _ => ∅.

Definition inGrid (col row : Z) : bool :=
  (0 <=? col) && (col <? ColMax) && (0 <=? row) && (row <? RowMax).

Definition setAttr (d : Dungeon) (col row : Z) (key : string) (v : Z) : Dungeon :=
  fun c r => if (c =? col) && (r =? row) then <[key := v]> (d c r) else d c r.

(** ** A state monad with early return and panics

    The state is the dungeon (mutated through the pointer receiver) and the
    rest of the opened file.  [RRet e d] is a [return e] out of [Parse]
    ([e = None] is [return nil]); [RPanic] is a runtime panic. *)
Inductive res (A : Type) :=
| ROk (a : A) (d : Dungeon) (s : list Byte.byte)
| RRet (e : option goerror) (d : Dungeon)
| RPanic (p : psite).
Arguments ROk {A}. Arguments RRet {A}. Arguments RPanic {A}.

Definition M (A : Type) := Dungeon -> list Byte.byte -> res A.

Definition ret {A} (a : A) : M A := fun d s => ROk a d s.
Definition bind {A B} (m : M A) (k : A -> M B) : M B :=
  fun d s =>
    match m d s with
    | ROk a d' s' => k a d' s'
    | RRet e d' => RRet e d'
    | RPanic p => RPanic p
    end.

Notation "'let*' x := m 'in' k" := (bind m (fun x => k))
  (at level 200, x name, m at level 100, k at level 200).
Notation "'do' m ; k" := (bind m (fun _ => k))
  (at level 60, m at next level, right associativity).

Definition retNil {A} : M A := fun d _ => RRet None d.
Definition retErr {A} (e : goerror) : M A := fun d _ => RRet (Some e) d.
Definition panic {A} (p : psite) : M A := fun _ _ => RPanic p.

(** One [binary.Read] of an [uint16]; the error is a value the caller tests. *)
Definition read : M (goerror + Z) :=
  fun d s =>
    match readU16 s with
    | inl e => ROk (inl e) d s
    | inr (x, s') => ROk (inr x) d s'
    end.

(** [dungeon[col][row][key] = v] *)
Definition write (key : string) (col row v : Z) : M unit :=
  fun d s => if inGrid col row then ROk tt (setAttr d col row key v) s
             else RPanic PGrid.

(** ** Squares (TIL) *)

Record Square := {
  PillarNumTop : Z;
  PillarNumRight : Z;
  PillarNumLeft : Z;
  PillarNumBottom : Z
}.

(** Go slice indexing with an [int] index. *)
Definition nthZ {A} (l : list A) (i : Z) : option A :=
  if i <? 0 then None else nth_error l (Z.to_nat i).

(** The body of both square loops:
<<
    if squareNumPlus1 != 0 {
        square := squares[squareNumPlus1-1]
        dungeon[col][row]["pillarNum"] = square.PillarNumTop
        dungeon[col+1][row]["pillarNum"] = square.PillarNumRight
        dungeon[col][row+1]["pillarNum"] = square.PillarNumLeft
        dungeon[col+1][row+1]["pillarNum"] = square.PillarNumBottom
    }
>> *)
Definition placeSquare (squares : list Square) (col row squareNumPlus1 : Z) : M unit :=
  if squareNumPlus1 =? 0 then ret tt else
  match nthZ squares (squareNumPlus1 - 1) with
  | None => panic PSquares
  | Some square =>
      do write "pillarNum" col row (PillarNumTop square) ;
      do write "pillarNum" (col + 1) row (PillarNumRight square) ;
      do write "pillarNum" col (row + 1) (PillarNumLeft square) ;
      write "pillarNum" (col + 1) (row + 1) (PillarNumBottom square)
  end.

(** ** dun.go: [Parse] *)

(** The inner square loop: [for j := 0; j < dunQWidth; j++ { ...; col += 2 }]. *)
Fixpoint squaresRow (squares : list Square) (n : nat) (col row : Z) : M unit :=
  match n with
  | O => ret tt
  | S n' =>
      let* r := read in
      match r with
      | inl err => retErr err
      | inr x =>
          do placeSquare squares col row x ;
          squaresRow squares n' (col + 2) row
      end
  end.

(** The outer square loop: [for i := 0; i < dunQHeight; i++ { col := colStart; ...; row += 2 }]. *)
Fixpoint squaresRows (squares : list Square) (dunQWidth : nat) (n : nat)
    (colStart row : Z) : M unit :=
  match n with
  | O => ret tt
  | S n' =>
      do squaresRow squares dunQWidth colStart row ;
      squaresRows squares dunQWidth n' colStart (row + 2)
  end.

(** The inner loop of a trailing plane, [j] counting up from 0:
<<
    err = binary.Read(fr, binary.LittleEndian, &x)
    if err != nil {
        if err == io.EOF && i == 0 && j == 0 { return nil }
        return err
    }
    dungeon[col][row][key] = int(x)
    col++
>> *)
Fixpoint planeRow (key : string) (i j : nat) (n : nat) (col row : Z) : M unit :=
  match n with
  | O => ret tt
  | S n' =>
      let* r := read in
      match r with
      | inl err =>
          if isEOF err && Nat.eqb i 0 && Nat.eqb j 0 then retNil else retErr err
      | inr x =>
          do write key col row x ;
          planeRow key i (S j) n' (col + 1) row
      end
  end.

(** The outer loop of a trailing plane, [i] counting up from 0. *)
Fixpoint planeRows (key : string) (i : nat) (n : nat) (dunWidth : nat)
    (colStart row : Z) : M unit :=
  match n with
  | O => ret tt
  | S n' =>
      do planeRow key i 0 dunWidth colStart row ;
      planeRows key (S i) n' dunWidth colStart (row + 1)
  end.

(** Everything [Parse] does after [til.Parse]: the square plane, then the
    unknown, dunMonsterID, dunObjectID and transparency planes. *)
Definition parseBody (squares : list Square) (dunQWidth dunQHeight : nat)
    (colStart rowStart : Z) : M unit :=
  let dunWidth := (2 * dunQWidth)%nat in
  let dunHeight := (2 * dunQHeight)%nat in
  do squaresRows squares dunQWidth dunQHeight colStart rowStart ;
  do planeRows "unknown" 0 dunHeight dunWidth colStart rowStart ;
  do planeRows "dunMonsterID" 0 dunHeight dunWidth colStart rowStart ;
  do planeRows "dunObjectID" 0 dunHeight dunWidth colStart rowStart ;
  do planeRows "transparency" 0 dunHeight dunWidth colStart rowStart ;
  ret tt.

(** What the caller observes: the dungeon (mutated in place) and the
    returned error, or a runtime panic. *)
Inductive outcome :=
| Done (d : Dungeon) (err : option goerror)
| Panicked (p : psite).

Definition finish (r : res unit) : outcome :=
  match r with
  | ROk _ d _ => Done d None
  | RRet e d => Done d e
  | RPanic p => Panicked p
  end.

(** The collaborators of [Parse]: [mpq.GetPath], [os.Open] (with the bytes
    of the opened file), [dunconf.GetColStart], [dunconf.GetRowStart],
    [mpq.GetRelPath] and [til.Parse]. *)
Record Env := {
  GetPath : string -> goerror + string;
  ReadFile : string -> goerror + list Byte.byte;
  GetColStart : string -> goerror + Z;
  GetRowStart : string -> goerror + Z;
  GetRelPath : string -> goerror + string;
  TilParse : string -> goerror + list Square
}.

(** [strings.LastIndex(s, "/")] as an optional position. *)
Fixpoint lastSlashFrom (s : string) (pos : nat) (acc : option nat) : option nat :=
  match s with
  | EmptyString => acc
  | String a s' =>
      lastSlashFrom s' (S pos) (if Ascii.eqb a "/"%char then Some pos else acc)
  end.

(** [path.Split]: [path[:i+1], path[i+1:]] with [i] the last slash. *)
Definition pathSplit (p : string) : string * string :=
  match lastSlashFrom p 0 None with
  | None => (EmptyString, p)
  | Some i => (substring 0 (S i) p, substring (S i) (String.length p - S i) p)
  end.

(** dun.go: [GetLevelName]. *)
Definition GetLevelName (env : Env) (dunName : string) : goerror + string :=
  match GetRelPath env dunName with
  | inl err => inl err
  | inr relDunPath =>
      let dunDir := fst (pathSplit relDunPath) in
      if String.eqb dunDir "levels/l1data/" then inr "l1"
      else if String.eqb dunDir "levels/l2data/" then inr "l2"
      else if String.eqb dunDir "levels/l3data/" then inr "l3"
      else if String.eqb dunDir "levels/l4data/" then inr "l4"
      else if String.eqb dunDir "levels/towndata/" then inr "town"
      else inl (Errorf (String.append "invalid dunDir ("
                          (String.append dunDir ").")))
  end.

(** dun.go: [(dungeon *Dungeon) Parse(dunName string)]. *)
Definition Parse (env : Env) (dunName : string) (dungeon : Dungeon) : outcome :=
  match GetPath env dunName with
  | inl err => Done dungeon (Some err)
  | inr dunPath =>
  match ReadFile env dunPath with
  | inl err => Done dungeon (Some err)
  | inr data =>
  match readHeader data with
  | inl err => Done dungeon (Some err)
  | inr (dunQWidth, dunQHeight, rest) =>
  match GetColStart env dunName with
  | inl err => Done dungeon (Some err)
  | inr colStart =>
  match GetRowStart env dunName with
  | inl err => Done dungeon (Some err)
  | inr rowStart =>
  match GetLevelName env dunName with
  | inl err => Done dungeon (Some err)
  | inr nameWithoutExt =>
  match TilParse env (String.append nameWithoutExt ".til") with
  | inl err => Done dungeon (Some err)
  | inr squares =>
      finish (parseBody squares (Z.to_nat dunQWidth) (Z.to_nat dunQHeight)
                colStart rowStart dungeon rest)
  end end end end end end end.

(** ** part_000 (package dunmini): the fixed-size [Parse] *)

(** The inner loop over rows, reading [squareIDsPlus1[k]]:
<<
    for i := 0; i < rowCount; i++ {
        squareNumPlus1 := int(squareIDsPlus1[k])
        ...
        row += 2
        k++
    }
>> *)
Fixpoint miniRows (squares : list Square) (squareIDsPlus1 : list Byte.byte)
    (n : nat) (k : nat) (col row : Z) : M nat :=
  match n with
  | O => ret k
  | S n' =>
      match nth_error squareIDsPlus1 k with
      | None => panic PBuffer
      | Some b =>
          do placeSquare squares col row (byteZ b) ;
          miniRows squares squareIDsPlus1 n' (S k) col (row + 2)
      end
  end.

(** The outer loop over columns: [for j := 0; j < colCount; j++ { row := rowStart; ...; col += 2 }]. *)
Fixpoint miniCols (squares : list Square) (squareIDsPlus1 : list Byte.byte)
    (rowCount : nat) (n : nat) (k : nat) (col rowStart : Z) : M nat :=
  match n with
  | O => ret k
  | S n' =>
      let* k' := miniRows squares squareIDsPlus1 rowCount k col rowStart in
      miniCols squares squareIDsPlus1 rowCount n' k' (col + 2) rowStart
  end.

(** part_000: [(dungeon *Dungeon) Parse(squareIDsPlus1 []uint8, colCount, rowCount int)],
    with [colStart = rowStart = 0]; the buffer is not a stream, so the
    stream component of the state is unused. *)
Definition ParseMini (env : Env) (squareIDsPlus1 : list Byte.byte)
    (colCount rowCount : Z) (dungeon : Dungeon) : outcome :=
  let colStart := 0 in
  let rowStart := 0 in
  match TilParse env "l1.til" with
  | inl err => Done dungeon (Some err)
  | inr squares =>
      finish ((do miniCols squares squareIDsPlus1 (Z.to_nat rowCount)
                    (Z.to_nat colCount) 0 colStart rowStart ;
               ret tt) dungeon [])
  end.

(** ** part_000: the compositor *)

(** [image.Rectangle] *)
Record Rectangle := {
  rMinX : Z;
  rMinY : Z;
  rMaxX : Z;
  rMaxY : Z
}.

(** [image.Rect]: the coordinates are swapped if necessary so that the
    rectangle is well-formed. *)
Definition Rect (x0 y0 x1 y1 : Z) : Rectangle :=
  let '(x0, x1) := if x0 >? x1 then (x1, x0) else (x0, x1) in
  let '(y0, y1) := if y0 >? y1 then (y1, y0) else (y0, y1) in
  {| rMinX := x0; rMinY := y0; rMaxX := x1; rMaxY := y1 |}.

(** Pillar ids for layout 1. *)
Definition PillarIDFloorShadowArchSe_1 : Z := 10.
Definition PillarIDFloorShadowArchSe_2 : Z := 248.
Definition PillarIDFloorShadowArchSe_3 : Z := 324.
Definition PillarIDFloorShadowArchSe_4 : Z := 330.
Definition PillarIDFloorShadowArchSe_5 : Z := 343.
Definition PillarIDFloorShadowArchSe_6 : Z := 420.
Definition PillarIDFloorShadowArchSw2_1 : Z := 258.
Definition PillarIDFloorShadowArchSwBroken2_1 : Z := 254.
Definition PillarIDFloorShadowArchSw_1 : Z := 11.
Definition PillarIDFloorShadowArchSw_2 : Z := 70.
Definition PillarIDFloorShadowArchSw_3 : Z := 210.
Definition PillarIDFloorShadowArchSw_4 : Z := 320.
Definition PillarIDFloorShadowArchSw_5 : Z := 340.
Definition PillarIDFloorShadowArchSw_6 : Z := 417.

(** Arch ids for layout 1. *)
Definition ArchSe : Z := 1.
Definition ArchSeBroken : Z := 2.
Definition ArchSeDoor : Z := 7.
Definition ArchSw : Z := 0.
Definition ArchSw2 : Z := 4.
Definition ArchSwBroken : Z := 5.
Definition ArchSwBroken2 : Z := 3.
Definition ArchSwDoor : Z := 6.

(** [getArchID]: the switch on the pillar id. *)
Definition getArchID (pillarID : Z) : Z * bool :=
  if (pillarID =? PillarIDFloorShadowArchSw_1) || (pillarID =? PillarIDFloorShadowArchSw_2)
     || (pillarID =? PillarIDFloorShadowArchSw_3) || (pillarID =? PillarIDFloorShadowArchSw_4)
     || (pillarID =? PillarIDFloorShadowArchSw_5) || (pillarID =? PillarIDFloorShadowArchSw_6)
  then (ArchSw, true)
  else if (pillarID =? PillarIDFloorShadowArchSe_1) || (pillarID =? PillarIDFloorShadowArchSe_2)
     || (pillarID =? PillarIDFloorShadowArchSe_3) || (pillarID =? PillarIDFloorShadowArchSe_4)
     || (pillarID =? PillarIDFloorShadowArchSe_5) || (pillarID =? PillarIDFloorShadowArchSe_6)
  then (ArchSe, true)
  else if pillarID =? PillarIDFloorShadowArchSwBroken2_1 then (ArchSwBroken2, true)
  else if pillarID =? PillarIDFloorShadowArchSw2_1 then (ArchSw2, true)
  else (0, false).

(** A [min.Pillar]: only its height is used numerically; its raster
    [pillars[pillarNum].Image(levelFrames)] is identified by the index. *)
Record Pillar := { Height : Z }.

(** The source raster of a [draw.Draw] call. *)
Inductive Src :=
| PillarImage (pillarNum : Z)
| ArchImage (archID : Z).

Inductive DrawOp := Over.

(** A call [draw.Draw(dst, rect, src, image.ZP, op)]; the canvas is the
    sequence of draw calls applied to it, in order. *)
Record DrawCall := {
  dstRect : Rectangle;
  src : Src;
  op : DrawOp
}.

(** The outcome of [Image]: the canvas bounds and its draw calls, with the
    (possibly freshly decoded) arch cache; [log.Fatalln]; or a panic. *)
Inductive imgOutcome :=
| ImgDone (bounds : Rectangle) (draws : list DrawCall) (archCache : nat)
| ImgFatal (err : goerror)
| ImgPanic (p : psite).

Section Compositor.

(** [min.BlockWidth], [min.BlockHeight] and [min.PillarWidth]: constants of
    the min package. *)
Variables BlockWidth BlockHeight PillarWidth : Z.

(** [GetPillarRect] *)
Definition GetPillarRect (col row mapWidth pillarHeight : Z) : Rectangle :=
  let minX := Z.quot mapWidth 2 - BlockWidth - row * BlockWidth + col * BlockWidth in
  let minY := row * Z.quot BlockHeight 2 + col * Z.quot BlockHeight 2 in
  let maxX := minX + PillarWidth in
  let maxY := minY + pillarHeight in
  Rect minX minY maxX maxY.

(** The body of the compositing loop for one cell:
<<
    pillarNum, ok := dungeon[col][row]["pillarNum"]
    if ok {
        rect := GetPillarRect(col, row, mapWidth, pillarHeight)
        src := pillars[pillarNum].Image(levelFrames)
        draw.Draw(dst, rect, src, image.ZP, draw.Over)
        archID, ok := getArchID(pillarNum)
        if ok { draw.Draw(dst, rect, arches[archID], image.ZP, draw.Over) }
    }
>>  [nArches] is [len(arches)]. *)
Definition drawCell (d : Dungeon) (pillars : list Pillar) (nArches : nat)
    (mapWidth pillarHeight col row : Z) : psite + list DrawCall :=
  if negb (inGrid col row) then inl PGrid else
  match d col row !! "pillarNum" with
  | None => inr []
  | Some pillarNum =>
      let rect := GetPillarRect col row mapWidth pillarHeight in
      match nthZ pillars pillarNum with
      | None => inl PPillars
      | Some _ =>
          let base := {| dstRect := rect; src := PillarImage pillarNum; op := Over |} in
          let '(archID, ok) := getArchID pillarNum in
          if ok then
            if (0 <=? archID) && (archID <? Z.of_nat nArches)
            then inr [base; {| dstRect := rect; src := ArchImage archID; op := Over |}]
            else inl PArches
          else inr [base]
      end
  end.

Definition appendDraws (acc : psite + list DrawCall) (r : psite + list DrawCall)
    : psite + list DrawCall :=
  match acc, r with
  | inl p, _ => inl p
  | inr _, inl p => inl p
  | inr l1, inr l2 => inr (l1 ++ l2)
  end.

(** [for col := 0; col < colCount; col++ { ... }] *)
Fixpoint imageCols (d : Dungeon) (pillars : list Pillar) (nArches : nat)
    (mapWidth pillarHeight : Z) (n : nat) (col row : Z) : psite + list DrawCall :=
  match n with
  | O => inr []
  | S n' =>
      appendDraws (drawCell d pillars nArches mapWidth pillarHeight col row)
                  (imageCols d pillars nArches mapWidth pillarHeight n' (col + 1) row)
  end.

(** [for row := 0; row < rowCount; row++ { ... }] *)
Fixpoint imageRows (d : Dungeon) (pillars : list Pillar) (nArches : nat)
    (mapWidth pillarHeight : Z) (colCount : nat) (n : nat) (row : Z)
    : psite + list DrawCall :=
  match n with
  | O => inr []
  | S n' =>
      appendDraws (imageCols d pillars nArches mapWidth pillarHeight colCount 0 row)
                  (imageRows d pillars nArches mapWidth pillarHeight colCount n' (row + 1))
  end.

(** [Image(colCount, rowCount int, pillars []min.Pillar, levelFrames)].
    [arches] is the package-level cache ([None] while it is nil) and
    [decodeArches] the result of decoding "l1s.cel" into it. *)
Definition Image (d : Dungeon) (arches : option nat) (decodeArches : goerror + nat)
    (colCount rowCount : Z) (pillars : list Pillar) : imgOutcome :=
  let loaded := match arches with Some n => inr n | None => decodeArches end in
  match loaded with
  | inl err => ImgFatal err
  | inr nArches =>
      match nthZ pillars 0 with
      | None => ImgPanic PPillars
      | Some p0 =>
          let pillarHeight := Height p0 in
          let maxCount := if rowCount >? colCount then rowCount else colCount in
          let mapWidth := maxCount * BlockWidth + maxCount * BlockWidth in
          let mapHeight := maxCount * Z.quot BlockHeight 2 + maxCount * Z.quot BlockHeight 2
                           + (pillarHeight - BlockHeight) in
          match imageRows d pillars nArches mapWidth pillarHeight
                  (Z.to_nat colCount) (Z.to_nat rowCount) 0 with
          | inl p => ImgPanic p
          | inr draws => ImgDone (Rect 0 0 mapWidth mapHeight) draws nArches
          end
      end
  end.

End Compositor.

(** ** Flat forms of the square loops

    The nested loops of both [Parse] variants visit a list of 2x2 blocks;
    the flat forms below take that list explicitly. *)

(** One square step of the full-stream variant: read, then place. *)
Fixpoint squaresFlat (squares : list Square) (blocks : list (Z * Z)) : M unit :=
  match blocks with
  | [] => ret tt
  | (col, row) :: blocks' =>
      let* r := read in
      match r with
      | inl err => retErr err
      | inr x =>
          do placeSquare squares col row x ;
          squaresFlat squares blocks'
      end
  end.

(** One square step of the fixed-size variant, at buffer index [k]. *)
Definition miniStep (squares : list Square) (squareIDsPlus1 : list Byte.byte)
    (e : nat * (Z * Z)) : M unit :=
  let '(k, (col, row)) := e in
  match nth_error squareIDsPlus1 k with
  | None => panic PBuffer
  | Some b => placeSquare squares col row (byteZ b)
  end.

Fixpoint miniFlat (squares : list Square) (squareIDsPlus1 : list Byte.byte)
    (steps : list (nat * (Z * Z))) : M unit :=
  match steps with
  | [] => ret tt
  | e :: steps' =>
      do miniStep squares squareIDsPlus1 e ;
      miniFlat squares squareIDsPlus1 steps'
  end.

(** The blocks visited by [squaresRow] and [squaresRows]. *)
Fixpoint rowBlocks (col row : Z) (n : nat) : list (Z * Z) :=
  match n with
  | O => []
  | S n' => (col, row) :: rowBlocks (col + 2) row n'
  end.

Fixpoint gridBlocks (dunQWidth : nat) (n : nat) (colStart row : Z) : list (Z * Z) :=
  match n with
  | O => []
  | S n' => rowBlocks colStart row dunQWidth ++ gridBlocks dunQWidth n' colStart (row + 2)
  end.

(** The (index, block) pairs visited by [miniRows] and [miniCols]. *)
Fixpoint colSteps (k : nat) (col row : Z) (n : nat) : list (nat * (Z * Z)) :=
  match n with
  | O => []
  | S n' => (k, (col, row)) :: colSteps (S k) col (row + 2) n'
  end.

Fixpoint gridSteps (rowCount : nat) (n : nat) (k : nat) (col rowStart : Z)
    : list (nat * (Z * Z)) :=
  match n with
  | O => []
  | S n' => colSteps k col rowStart rowCount
            ++ gridSteps rowCount n' (k + rowCount) (col + 2) rowStart
  end.

(** The block of the [k]-th square id as the spec describes it, row-major:
    [(colStart + 2*(k mod width), rowStart + 2*(k div width))]. *)
Definition rowMajorBlock (width : nat) (colStart rowStart : Z) (k : nat) : Z * Z :=
  (colStart + 2 * Z.of_nat (k mod width), rowStart + 2 * Z.of_nat (k / width)).

(** The block of the [k]-th buffer element, column-major:
    [(2*(k div rowCount), 2*(k mod rowCount))]. *)
Definition colMajorBlock (rowCount : nat) (k : nat) : Z * Z :=
  (2 * Z.of_nat (k / rowCount), 2 * Z.of_nat (k mod rowCount)).

(** The value of the [k]-th little-endian [uint16] of a stream. *)
Definition u16At (s : list Byte.byte) (k : nat) : Z :=
  match readU16 (drop (2 * k) s) with
  | inr (x, _) => x
  | inl _ => 0
  end.

(** Extensional equality of computations. *)
Definition meq {A} (m1 m2 : M A) : Prop := forall d s, m1 d s = m2 d s.

(** The collaborators of [Parse] succeed on [dunName] with these results. *)
Definition envParse (env : Env) (dunName : string) (dunQWidth dunQHeight : nat)
    (colStart rowStart : Z) (squares : list Square) (rest : list Byte.byte) : Prop :=
  exists dunPath data nameWithoutExt,
    GetPath env dunName = inr dunPath /\
    ReadFile env dunPath = inr data /\
    readHeader data = inr (Z.of_nat dunQWidth, Z.of_nat dunQHeight, rest) /\
    GetColStart env dunName = inr colStart /\
    GetRowStart env dunName = inr rowStart /\
    GetLevelName env dunName = inr nameWithoutExt /\
    TilParse env (String.append nameWithoutExt ".til") = inr squares.

(** [m] changes the attribute [k] of the cell [(x, y)] only where [P x y k]
    holds (whatever its outcome short of a panic). *)
Definition keeps {A} (P : Z -> Z -> string -> Prop) (m : M A) : Prop :=
  forall d s,
    match m d s with
    | ROk _ d' _ | RRet _ d' => forall x y k, ~ P x y k -> d' x y !! k = d x y !! k
    | RPanic _ => True
    end.

(** [m] never panics at site [p]. *)
Definition noPanicAt {A} (p : psite) (m : M A) : Prop :=
  forall d s, m d s <> RPanic p.

(** All four cells of the 2x2 block at [(col, row)] lie in the grid. *)
Definition blockInGrid (col row : Z) : bool :=
  inGrid col row && inGrid (col + 1) row && inGrid col (row + 1) && inGrid (col + 1) (row + 1).

(** The dungeon after the four writes of one square. *)
Definition placed (d : Dungeon) (col row : Z) (square : Square) : Dungeon :=
  setAttr (setAttr (setAttr (setAttr d col row "pillarNum" (PillarNumTop square))
                              (col + 1) row "pillarNum" (PillarNumRight square))
                     col (row + 1) "pillarNum" (PillarNumLeft square))
          (col + 1) (row + 1) "pillarNum" (PillarNumBottom square).

(** A concrete environment: [dunName] is its own path and relative path,
    the opened file holds [data]. *)
Definition envFile (data : list Byte.byte) (colStart rowStart : Z) (squares : list Square) : Env :=
  {| GetPath := fun n => inr n;
     ReadFile := fun _ => inr data;
     GetColStart := fun _ => inr colStart;
     GetRowStart := fun _ => inr rowStart;
     GetRelPath := fun n => inr n;
     TilParse := fun _ => inr squares |}.

Definition sqA : Square :=
  {| PillarNumTop := 5; PillarNumRight := 6; PillarNumLeft := 7; PillarNumBottom := 8 |}.

(** The pillarNum of cell [(x, y)] when the only square placed is [square]
    at the block [(c, r)]: top, right, left, bottom at [(c, r)], [(c+1, r)],
    [(c, r+1)], [(c+1, r+1)]; nothing elsewhere. *)
Definition quadrantPillar (c r : Z) (square : Square) (x y : Z) : option Z :=
  if (x =? c) && (y =? r) then Some (PillarNumTop square)
  else if (x =? c + 1) && (y =? r) then Some (PillarNumRight square)
  else if (x =? c) && (y =? r + 1) then Some (PillarNumLeft square)
  else if (x =? c + 1) && (y =? r + 1) then Some (PillarNumBottom square)
  else None.

(** The trailing planes of [Parse], one [planeRows] loop per key. *)
Fixpoint planesFrom (keys : list string) (dunHeight dunWidth : nat) (colStart rowStart : Z)
    : M unit :=
  match keys with
  | [] => ret tt
  | key :: keys' =>
      do planeRows key 0 dunHeight dunWidth colStart rowStart ;
      planesFrom keys' dunHeight dunWidth colStart rowStart
  end.

(** The compositing step as the spec describes it. The arch overlays: the
    southwest arch, the southeast arch, and the broken and alternate
    southwest variants, each with its pillar ids. *)
Definition archSwIDs : list Z :=
  [PillarIDFloorShadowArchSw_1; PillarIDFloorShadowArchSw_2; PillarIDFloorShadowArchSw_3;
   PillarIDFloorShadowArchSw_4; PillarIDFloorShadowArchSw_5; PillarIDFloorShadowArchSw_6].

Definition archSeIDs : list Z :=
  [PillarIDFloorShadowArchSe_1; PillarIDFloorShadowArchSe_2; PillarIDFloorShadowArchSe_3;
   PillarIDFloorShadowArchSe_4; PillarIDFloorShadowArchSe_5; PillarIDFloorShadowArchSe_6].

Definition archOverlay (pillarNum : Z) : option Z :=
  if existsb (Z.eqb pillarNum) archSwIDs then Some ArchSw
  else if existsb (Z.eqb pillarNum) archSeIDs then Some ArchSe
  else if pillarNum =? PillarIDFloorShadowArchSwBroken2_1 then Some ArchSwBroken2
  else if pillarNum =? PillarIDFloorShadowArchSw2_1 then Some ArchSw2
  else None.

(** A cell with a pillarNum gets its base pillar raster, then (for an arch
    pillar) the arch overlay in the same rectangle, both drawn with
    [draw.Over]; a cell without one gets nothing. *)
Definition cellDraws (BW BH PW : Z) (d : Dungeon) (mapWidth pillarHeight col row : Z)
    : list DrawCall :=
  match d col row !! "pillarNum" with
  | None => []
  | Some pillarNum =>
      let rect := GetPillarRect BW BH PW col row mapWidth pillarHeight in
      {| dstRect := rect; src := PillarImage pillarNum; op := Over |} ::
      match archOverlay pillarNum with
      | Some a => [{| dstRect := rect; src := ArchImage a; op := Over |}]
      | None => []
      end
  end.

(** The integers [start], [start+1], ..., [start+n-1]. *)
Fixpoint zseqFrom (start : Z) (n : nat) : list Z :=
  match n with
  | O => []
  | S n' => start :: zseqFrom (start + 1) n'
  end.

(** All the draws, rows outside and columns inside. *)
Definition imageDraws (BW BH PW : Z) (d : Dungeon) (mapWidth pillarHeight : Z)
    (colCount rowCount : nat) : list DrawCall :=
  flat_map (fun row => flat_map (fun col => cellDraws BW BH PW d mapWidth pillarHeight col row)
                                (zseqFrom 0 colCount))
           (zseqFrom 0 rowCount).

(** The four cells of the 2x2 block at [b]. *)
Definition blockCells (b : Z * Z) (x y : Z) : Prop :=
  fst b <= x <= fst b + 1 /\ snd b <= y <= snd b + 1.

(** Two blocks that share no cell. *)
Definition farBlocks (b1 b2 : Z * Z) : Prop :=
  2 <= Z.abs (fst b1 - fst b2) \/ 2 <= Z.abs (snd b1 - snd b2).

(** The body of a 1x1 file: an empty square, then the four trailing planes
    holding 1..4, 17..20, 33..36 and 49..52. *)
Definition planesRest : list Byte.byte :=
  [Byte.x00; Byte.x00;
   Byte.x01; Byte.x00; Byte.x02; Byte.x00; Byte.x03; Byte.x00; Byte.x04; Byte.x00;
   Byte.x11; Byte.x00; Byte.x12; Byte.x00; Byte.x13; Byte.x00; Byte.x14; Byte.x00;
   Byte.x21; Byte.x00; Byte.x22; Byte.x00; Byte.x23; Byte.x00; Byte.x24; Byte.x00;
   Byte.x31; Byte.x00; Byte.x32; Byte.x00; Byte.x33; Byte.x00; Byte.x34; Byte.x00].

Definition planesEnv : Env :=
  envFile ([Byte.x01; Byte.x00; Byte.x01; Byte.x00] ++ planesRest) 0 0 [sqA].

(** ** part_000: [ParsePillars]

    The pillar ids are [uint32] values, read as [int]. The outcome records
    the buffer index reached, the dungeon and the lines printed by
    [fmt.Printf("[%d][%d]: %d\n", col, row, pillarNum)] as triples, or the
    runtime panic together with the lines printed before it. *)
Inductive pillarsRes :=
| PillarsOk (i : nat) (d : Dungeon) (printed : list (Z * Z * Z))
| PillarsPanic (p : psite) (printed : list (Z * Z * Z)).

(** The inner loop: [for row := 0; row < 112; row++ { ...; i++ }]. *)
Fixpoint pillarsRows (pillarIDsPlus1 : list Z) (n : nat) (col row : Z) (i : nat)
    (d : Dungeon) (printed : list (Z * Z * Z)) : pillarsRes :=
  match n with
  | O => PillarsOk i d printed
  | S n' =>
      match nth_error pillarIDsPlus1 i with
      | None => PillarsPanic PBuffer printed
      | Some pillarIDPlus1 =>
          if pillarIDPlus1 =? 0
          then pillarsRows pillarIDsPlus1 n' col (row + 1) (S i) d printed
          else
            let pillarNum := pillarIDPlus1 - 1 in
            let printed' := printed ++ [(col, row, pillarNum)] in
            if inGrid col row
            then pillarsRows pillarIDsPlus1 n' col (row + 1) (S i)
                   (setAttr d col row "pillarNum" pillarNum) printed'
            else PillarsPanic PGrid printed'
      end
  end.

(** The outer loop: [for col := 0; col < 112; col++ { ... }]. *)
Fixpoint pillarsCols (pillarIDsPlus1 : list Z) (n : nat) (col : Z) (i : nat)
    (d : Dungeon) (printed : list (Z * Z * Z)) : pillarsRes :=
  match n with
  | O => PillarsOk i d printed
  | S n' =>
      match pillarsRows pillarIDsPlus1 112 col 0 i d printed with
      | PillarsOk i' d' printed' => pillarsCols pillarIDsPlus1 n' (col + 1) i' d' printed'
      | r => r
      end
  end.

(** [(dungeon *Dungeon) ParsePillars(pillarIDsPlus1 []uint32)] *)
Definition ParsePillars (pillarIDsPlus1 : list Z) (dungeon : Dungeon) : pillarsRes :=
  pillarsCols pillarIDsPlus1 112 0 0 dungeon [].

(** What one pillar id does to the attributes of its cell, and what it
    prints: nothing for 0, else pillarNum is set to (and printed as) the id
    minus 1. *)
Definition pillarUpdate (pillarIDPlus1 : Z) (m : gmap string Z) : gmap string Z :=
  if pillarIDPlus1 =? 0 then m else <["pillarNum" := pillarIDPlus1 - 1]> m.

Definition pillarPrint (col row pillarIDPlus1 : Z) : list (Z * Z * Z) :=
  if pillarIDPlus1 =? 0 then [] else [(col, row, pillarIDPlus1 - 1)].

(** ** Monad laws *)

Lemma bind_assoc {A B C} (m : M A) (f : A -> M B) (g : B -> M C) :
  meq (bind (bind m f) g) (bind m (fun a => bind (f a) g)).
Proof. intros d s. unfold bind. destruct (m d s); reflexivity. Qed.

Lemma bind_ret_r {A} (m : M A) : meq (bind m ret) m.
Proof. intros d s. unfold bind, ret. destruct (m d s); reflexivity. Qed.

Lemma bind_ext {A B} (m : M A) (f g : A -> M B) :
  (forall a, meq (f a) (g a)) -> meq (bind m f) (bind m g).
Proof. intros H d s. unfold bind. destruct (m d s); [apply H|reflexivity|reflexivity]. Qed.

Lemma bind_meq_l {A B} (m1 m2 : M A) (f : A -> M B) :
  meq m1 m2 -> meq (bind m1 f) (bind m2 f).
Proof. intros H d s. unfold bind. rewrite H. reflexivity. Qed.

Lemma meq_trans {A} (m1 m2 m3 : M A) : meq m1 m2 -> meq m2 m3 -> meq m1 m3.
Proof. intros H1 H2 d s. rewrite H1. apply H2. Qed.

(** ** From the nested loops to the flat forms *)

Lemma squaresFlat_app squares l1 l2 :
  meq (squaresFlat squares (l1 ++ l2))
      (do squaresFlat squares l1 ; squaresFlat squares l2).
Proof.
  induction l1 as [|[c r] l1 IH]; intros d s; [reflexivity|].
  cbn [squaresFlat app]. unfold bind at 1 2 3 4, read.
  destruct (readU16 s) as [e|[x s']]; [reflexivity|].
  unfold bind. destruct (placeSquare squares c r x d s'); try reflexivity.
  apply IH.
Qed.

Lemma squaresRow_flat squares n col row :
  meq (squaresRow squares n col row) (squaresFlat squares (rowBlocks col row n)).
Proof.
  revert col. induction n as [|n IH]; intros col d s; [reflexivity|].
  cbn [squaresRow rowBlocks squaresFlat]. unfold bind, read.
  destruct (readU16 s) as [e|[x s']]; [reflexivity|].
  destruct (placeSquare squares col row x d s'); try reflexivity.
  apply IH.
Qed.

Lemma squaresRows_flat squares w n colStart row :
  meq (squaresRows squares w n colStart row)
      (squaresFlat squares (gridBlocks w n colStart row)).
Proof.
  revert row. induction n as [|n IH]; intros row d s; [reflexivity|].
  cbn [squaresRows gridBlocks]. rewrite squaresFlat_app.
  unfold bind at 1 2. rewrite squaresRow_flat.
  destruct (squaresFlat squares (rowBlocks colStart row w) d s); try reflexivity.
  apply IH.
Qed.

Lemma miniFlat_app squares buf l1 l2 :
  meq (miniFlat squares buf (l1 ++ l2))
      (do miniFlat squares buf l1 ; miniFlat squares buf l2).
Proof.
  induction l1 as [|e l1 IH]; intros d s; [reflexivity|].
  cbn [miniFlat app]. unfold bind.
  destruct (miniStep squares buf e d s); try reflexivity. apply IH.
Qed.

Lemma miniRows_flat squares buf n k col row :
  meq (miniRows squares buf n k col row)
      (do miniFlat squares buf (colSteps k col row n) ; ret (k + n)%nat).
Proof.
  revert k row. induction n as [|n IH]; intros k row d s.
  - cbn. rewrite Nat.add_0_r. reflexivity.
  - cbn [miniRows colSteps miniFlat]. unfold miniStep.
    destruct (nth_error buf k) as [b|]; [|reflexivity].
    unfold bind. destruct (placeSquare squares col row (byteZ b) d s); try reflexivity.
    rewrite IH. rewrite Nat.add_succ_r. reflexivity.
Qed.

Lemma miniCols_flat squares buf rc n k col rowStart :
  meq (miniCols squares buf rc n k col rowStart)
      (do miniFlat squares buf (gridSteps rc n k col rowStart) ; ret (k + n * rc)%nat).
Proof.
  revert k col. induction n as [|n IH]; intros k col d s.
  - cbn. rewrite Nat.add_0_r. reflexivity.
  - cbn [miniCols gridSteps]. unfold bind at 1.
    rewrite (miniRows_flat squares buf rc k col rowStart d s).
    unfold bind. rewrite (miniFlat_app squares buf _ _ d s).
    unfold bind.
    destruct (miniFlat squares buf (colSteps k col rowStart rc) d s); try reflexivity.
    unfold ret at 1. rewrite IH. unfold bind.
    destruct (miniFlat squares buf (gridSteps rc n (k + rc) (col + 2) rowStart) d0 s0);
      try reflexivity.
    unfold ret. f_equal. lia.
Qed.

(** ** The blocks in visiting order *)

Lemma seq_add_map a n : seq a n = map (Nat.add a) (seq 0 n).
Proof.
  induction a as [|a IH].
  - symmetry. apply map_id.
  - rewrite <- seq_shift, IH, map_map. reflexivity.
Qed.

Lemma divmod_eq (b q r : nat) :
  (r < b)%nat -> ((b * q + r) / b = q /\ (b * q + r) mod b = r)%nat.
Proof.
  intros Hr. split.
  - symmetry. apply (Nat.div_unique _ _ _ r); lia.
  - symmetry. apply (Nat.mod_unique _ _ q); lia.
Qed.

Lemma rowBlocks_map col row n :
  rowBlocks col row n = map (fun j => (col + 2 * Z.of_nat j, row)) (seq 0 n).
Proof.
  revert col. induction n as [|n IH]; intros col; [reflexivity|].
  cbn [rowBlocks seq map]. rewrite IH, <- seq_shift, map_map.
  f_equal; [f_equal; lia|]. apply map_ext. intros j. f_equal. lia.
Qed.

Lemma gridBlocks_snoc w n colStart row :
  gridBlocks w (S n) colStart row
  = gridBlocks w n colStart row ++ rowBlocks colStart (row + 2 * Z.of_nat n) w.
Proof.
  revert row. induction n as [|n IH]; intros row.
  - cbn. rewrite app_nil_r. f_equal. lia.
  - cbn [gridBlocks] in *. rewrite IH, app_assoc. do 2 f_equal. lia.
Qed.

Lemma gridBlocks_rowMajor w h colStart rowStart :
  gridBlocks w h colStart rowStart
  = map (rowMajorBlock w colStart rowStart) (seq 0 (w * h)).
Proof.
  induction h as [|h IH].
  - rewrite Nat.mul_0_r. reflexivity.
  - rewrite gridBlocks_snoc, IH, Nat.mul_succ_r, seq_app, map_app. f_equal.
    rewrite rowBlocks_map, (seq_add_map (w * h)), map_map.
    apply map_ext_in. intros j Hj. apply in_seq in Hj.
    destruct (divmod_eq w h j) as [Hd Hm]; [lia|].
    unfold rowMajorBlock. rewrite Hd, Hm. reflexivity.
Qed.

Lemma colSteps_map k col row n :
  colSteps k col row n = map (fun i => ((k + i)%nat, (col, row + 2 * Z.of_nat i))) (seq 0 n).
Proof.
  revert k row. induction n as [|n IH]; intros k row; [reflexivity|].
  cbn [colSteps seq map]. rewrite IH, <- seq_shift, map_map.
  f_equal; [f_equal; [lia|f_equal; lia]|]. apply map_ext. intros i. f_equal; [lia|f_equal; lia].
Qed.

Lemma gridSteps_snoc rc n k col rowStart :
  gridSteps rc (S n) k col rowStart
  = gridSteps rc n k col rowStart
    ++ colSteps (k + n * rc) (col + 2 * Z.of_nat n) rowStart rc.
Proof.
  revert k col. induction n as [|n IH]; intros k col.
  - cbn. rewrite app_nil_r. f_equal; lia.
  - cbn [gridSteps] in *. rewrite IH, app_assoc. f_equal. f_equal; lia.
Qed.

Lemma gridSteps_colMajor rc cc :
  gridSteps rc cc 0 0 0 = map (fun k => (k, colMajorBlock rc k)) (seq 0 (cc * rc)).
Proof.
  induction cc as [|cc IH]; [reflexivity|].
  rewrite gridSteps_snoc, IH, Nat.mul_succ_l, seq_app, map_app. f_equal.
  rewrite colSteps_map, (seq_add_map (cc * rc)), map_map.
  apply map_ext_in. intros i Hi. apply in_seq in Hi.
  destruct (divmod_eq rc cc i) as [Hd Hm]; [lia|].
  unfold colMajorBlock. rewrite (Nat.mul_comm cc rc), Hd, Hm. f_equal; try lia; f_equal; lia.
Qed.

(** ** Frames: where a computation writes *)

Lemma keeps_weaken {A} (P Q : Z -> Z -> string -> Prop) (m : M A) :
  (forall x y k, P x y k -> Q x y k) -> keeps P m -> keeps Q m.
Proof.
  intros HPQ Hm d s. specialize (Hm d s).
  destruct (m d s); auto.
Qed.

Lemma keeps_ret {A} P (a : A) : keeps P (ret a).
Proof. intros d s x y k _. reflexivity. Qed.

Lemma keeps_retNil {A} P : keeps P (@retNil A).
Proof. intros d s x y k _. reflexivity. Qed.

Lemma keeps_retErr {A} P e : keeps P (@retErr A e).
Proof. intros d s x y k _. reflexivity. Qed.

Lemma keeps_panic {A} P p : keeps P (@panic A p).
Proof. intros d s. exact I. Qed.

Lemma keeps_read P : keeps P read.
Proof. intros d s. unfold read. destruct (readU16 s) as [e|[x s']]; auto. Qed.

Lemma keeps_write (P : Z -> Z -> string -> Prop) key col row v :
  P col row key -> keeps P (write key col row v).
Proof.
  intros HP d s. unfold write. destruct (inGrid col row); [|exact I].
  intros x y k Hk. unfold setAttr.
  destruct (Z.eqb_spec x col), (Z.eqb_spec y row); try reflexivity. subst. simpl.
  rewrite lookup_insert_ne; [reflexivity|]. intros ->. contradiction.
Qed.

Lemma keeps_bind {A B} P (m : M A) (f : A -> M B) :
  keeps P m -> (forall a, keeps P (f a)) -> keeps P (bind m f).
Proof.
  intros Hm Hf d s. specialize (Hm d s). unfold bind.
  destruct (m d s) as [a d1 s1|e d1|p]; auto.
  specialize (Hf a d1 s1). destruct (f a d1 s1); auto.
  - intros x y k Hk. rewrite Hf by exact Hk. apply Hm, Hk.
  - intros x y k Hk. rewrite Hf by exact Hk. apply Hm, Hk.
Qed.

Lemma keeps_placeSquare squares col row x :
  keeps (fun x' y' k => k = "pillarNum" /\ col <= x' <= col + 1 /\ row <= y' <= row + 1)
        (placeSquare squares col row x).
Proof.
  unfold placeSquare. destruct (x =? 0); [apply keeps_ret|].
  destruct (nthZ squares (x - 1)); [|apply keeps_panic].
  repeat (apply keeps_bind; [apply keeps_write; split; [reflexivity|lia]|intros _]).
  apply keeps_write; split; [reflexivity|lia].
Qed.

Lemma keeps_squaresRow squares n col row :
  keeps (fun x y k => k = "pillarNum" /\ col <= x < col + 2 * Z.of_nat n /\ row <= y <= row + 1)
        (squaresRow squares n col row).
Proof.
  revert col. induction n as [|n IH]; intros col; [apply keeps_ret|].
  cbn [squaresRow]. apply keeps_bind; [apply keeps_read|]. intros [e|x].
  - apply keeps_retErr.
  - apply keeps_bind.
    + eapply keeps_weaken; [|apply keeps_placeSquare]. cbv beta. intros ? ? ? [-> ?]. split; [reflexivity|lia].
    + intros _. eapply keeps_weaken; [|apply IH]. cbv beta. intros ? ? ? [-> ?]. split; [reflexivity|lia].
Qed.

Lemma keeps_squaresRows squares w n colStart row :
  keeps (fun x y k => k = "pillarNum" /\ colStart <= x < colStart + 2 * Z.of_nat w
                      /\ row <= y < row + 2 * Z.of_nat n)
        (squaresRows squares w n colStart row).
Proof.
  revert row. induction n as [|n IH]; intros row; [apply keeps_ret|].
  cbn [squaresRows]. apply keeps_bind.
  - eapply keeps_weaken; [|apply keeps_squaresRow]. cbv beta. intros ? ? ? [-> ?]. split; [reflexivity|lia].
  - intros _. eapply keeps_weaken; [|apply IH]. cbv beta. intros ? ? ? [-> ?]. split; [reflexivity|lia].
Qed.

Lemma keeps_planeRow key i j n col row :
  keeps (fun x y k => k = key /\ col <= x < col + Z.of_nat n /\ y = row)
        (planeRow key i j n col row).
Proof.
  revert j col. induction n as [|n IH]; intros j col; [apply keeps_ret|].
  cbn [planeRow]. apply keeps_bind; [apply keeps_read|]. intros [e|x].
  - destruct (isEOF e && Nat.eqb i 0 && Nat.eqb j 0);
      [apply keeps_retNil|apply keeps_retErr].
  - apply keeps_bind.
    + apply keeps_write. split; [reflexivity|lia].
    + intros _. eapply keeps_weaken; [|apply IH]. cbv beta. intros ? ? ? [-> ?]. split; [reflexivity|lia].
Qed.

Lemma keeps_planeRows key i n w colStart row :
  keeps (fun x y k => k = key /\ colStart <= x < colStart + Z.of_nat w
                      /\ row <= y < row + Z.of_nat n)
        (planeRows key i n w colStart row).
Proof.
  revert i row. induction n as [|n IH]; intros i row; [apply keeps_ret|].
  cbn [planeRows]. apply keeps_bind.
  - eapply keeps_weaken; [|apply keeps_planeRow]. cbv beta. intros ? ? ? [-> ?]. split; [reflexivity|lia].
  - intros _. eapply keeps_weaken; [|apply IH]. cbv beta. intros ? ? ? [-> ?]. split; [reflexivity|lia].
Qed.

(** ** One square step *)

Lemma placeSquare_cases squares col row x d s :
  (exists d', placeSquare squares col row x d s = ROk tt d' s) \/
  (exists p, placeSquare squares col row x d s = RPanic p).
Proof.
  unfold placeSquare. destruct (x =? 0); [left; eexists; reflexivity|].
  destruct (nthZ squares (x - 1)); [|right; eexists; reflexivity].
  unfold bind, write.
  repeat match goal with |- context [if inGrid ?a ?b then _ else _] => destruct (inGrid a b) end;
    eauto.
Qed.

Lemma placeSquare_panics squares col row x :
  x <> 0 -> nthZ squares (x - 1) = None \/ blockInGrid col row = false ->
  forall d s, exists p, placeSquare squares col row x d s = RPanic p.
Proof.
  intros Hx Hcase d s. unfold placeSquare.
  destruct (Z.eqb_spec x 0); [contradiction|].
  destruct (nthZ squares (x - 1)) eqn:Hn; [|eexists; reflexivity].
  destruct Hcase as [Hc|Hc]; [discriminate|].
  unfold blockInGrid in Hc. unfold bind, write.
  destruct (inGrid col row); [|eexists; reflexivity].
  destruct (inGrid (col + 1) row); [|eexists; reflexivity].
  destruct (inGrid col (row + 1)); [|eexists; reflexivity].
  destruct (inGrid (col + 1) (row + 1)); [discriminate|eexists; reflexivity].
Qed.

Lemma placeSquare_ok squares col row x square d s :
  x <> 0 -> nthZ squares (x - 1) = Some square -> blockInGrid col row = true ->
  placeSquare squares col row x d s = ROk tt (placed d col row square) s.
Proof.
  intros Hx Hn Hb. unfold placeSquare.
  destruct (Z.eqb_spec x 0); [contradiction|]. rewrite Hn.
  unfold blockInGrid in Hb. apply andb_prop in Hb as [Hb H4].
  apply andb_prop in Hb as [Hb H3]. apply andb_prop in Hb as [H1 H2].
  unfold bind, write. rewrite H1, H2, H3, H4. reflexivity.
Qed.

Lemma placeSquare_zero squares col row d s :
  placeSquare squares col row 0 d s = ROk tt d s.
Proof. reflexivity. Qed.

Lemma placeSquare_in_range squares col row x square d s :
  nthZ squares (x - 1) = Some square -> placeSquare squares col row x d s <> RPanic PSquares.
Proof.
  intros Hn. unfold placeSquare. destruct (x =? 0); [discriminate|]. rewrite Hn.
  unfold bind, write.
  repeat match goal with |- context [if inGrid ?a ?b then _ else _] => destruct (inGrid a b) end;
    discriminate.
Qed.

Lemma miniStep_cases squares buf e d s :
  (exists d', miniStep squares buf e d s = ROk tt d' s) \/
  (exists p, miniStep squares buf e d s = RPanic p).
Proof.
  destruct e as [k [col row]]. unfold miniStep.
  destruct (nth_error buf k); [apply placeSquare_cases|right; eexists; reflexivity].
Qed.

Lemma u16At_cons2 b0 b1 s k : u16At (b0 :: b1 :: s) (S k) = u16At s k.
Proof. unfold u16At. replace (2 * S k)%nat with (S (S (2 * k))) by lia. reflexivity. Qed.

(** If the [k]-th step of the square loop panics whatever the dungeon,
    the loop panics (the earlier steps read, place, or panic first). *)
Lemma squaresFlat_reach squares bs k d s :
  (k < length bs)%nat -> (2 * S k <= length s)%nat ->
  (forall d' s', exists p, placeSquare squares (fst (nth k bs (0, 0))) (snd (nth k bs (0, 0)))
                             (u16At s k) d' s' = RPanic p) ->
  exists p, squaresFlat squares bs d s = RPanic p.
Proof.
  revert k d s. induction bs as [|[c r] bs IH]; intros k d s Hk Hs Hp; [simpl in Hk; lia|].
  destruct s as [|b0 [|b1 s]]; [simpl in Hs; lia|simpl in Hs; lia|].
  cbn [squaresFlat]. unfold bind at 1, read. cbn [readU16].
  destruct k as [|k].
  - destruct (Hp d s) as [p Hpd]. exists p. unfold bind.
    change (placeSquare squares c r (u16At (b0 :: b1 :: s) 0) d s = RPanic p) in Hpd.
    unfold u16At in Hpd. cbn in Hpd. rewrite Hpd. reflexivity.
  - unfold bind. destruct (placeSquare_cases squares c r (byteZ b0 + 256 * byteZ b1) d s)
      as [[d' E]|[p E]]; rewrite E; [|eauto].
    apply (IH k); [simpl in Hk; lia|simpl in Hs; lia|].
    intros d'' s''. rewrite <- u16At_cons2 with (b0 := b0) (b1 := b1). apply Hp.
Qed.

(** A square plane of zeros places nothing. *)
Lemma squaresFlat_zeros squares bs d s :
  (2 * length bs <= length s)%nat ->
  (forall j, (j < length bs)%nat -> u16At s j = 0) ->
  squaresFlat squares bs d s = ROk tt d (drop (2 * length bs) s).
Proof.
  revert s. induction bs as [|[c r] bs IH]; intros s Hs Hz; [reflexivity|].
  destruct s as [|b0 [|b1 s]]; [simpl in Hs; lia|simpl in Hs; lia|].
  cbn [squaresFlat]. unfold bind at 1, read. cbn [readU16].
  assert (H0 : byteZ b0 + 256 * byteZ b1 = 0) by (apply (Hz 0%nat); simpl; lia).
  rewrite H0. unfold bind. rewrite placeSquare_zero.
  rewrite IH; [|simpl in Hs; lia|].
  - f_equal. replace (2 * length ((c, r) :: bs))%nat with (S (S (2 * length bs))) by (simpl; lia).
    reflexivity.
  - intros j Hj. rewrite <- (u16At_cons2 b0 b1). apply Hz. simpl. lia.
Qed.

Lemma miniFlat_reach squares buf l m d s :
  (m < length l)%nat ->
  (forall d' s', exists p, miniStep squares buf (nth m l (0%nat, (0, 0))) d' s' = RPanic p) ->
  exists p, miniFlat squares buf l d s = RPanic p.
Proof.
  revert m d. induction l as [|e l IH]; intros m d Hm Hp; [simpl in Hm; lia|].
  cbn [miniFlat]. unfold bind. destruct m as [|m].
  - destruct (Hp d s) as [p E]. cbn [nth] in E. rewrite E. eauto.
  - destruct (miniStep_cases squares buf e d s) as [[d' E]|[p E]]; rewrite E; [|eauto].
    apply (IH m); [simpl in Hm; lia|]. exact Hp.
Qed.

(** ** The two parse entry points in flat form *)

Lemma Parse_body env dunName w h colStart rowStart squares rest :
  envParse env dunName w h colStart rowStart squares rest ->
  forall d, Parse env dunName d = finish (parseBody squares w h colStart rowStart d rest).
Proof.
  intros (dunPath & data & lvl & H1 & H2 & H3 & H4 & H5 & H6 & H7) d.
  unfold Parse. rewrite H1, H2, H3, H4, H5, H6, H7, !Nat2Z.id. reflexivity.
Qed.

Lemma parseBody_squares squares w h colStart rowStart :
  meq (parseBody squares w h colStart rowStart)
      (do squaresFlat squares (map (rowMajorBlock w colStart rowStart) (seq 0 (w * h))) ;
       do planeRows "unknown" 0 (2 * h) (2 * w) colStart rowStart ;
       do planeRows "dunMonsterID" 0 (2 * h) (2 * w) colStart rowStart ;
       do planeRows "dunObjectID" 0 (2 * h) (2 * w) colStart rowStart ;
       do planeRows "transparency" 0 (2 * h) (2 * w) colStart rowStart ;
       ret tt).
Proof.
  intros d s. unfold parseBody. unfold bind at 1 7.
  rewrite squaresRows_flat, gridBlocks_rowMajor. reflexivity.
Qed.

Lemma ParseMini_flat env buf cc rc squares d :
  TilParse env "l1.til" = inr squares ->
  ParseMini env buf (Z.of_nat cc) (Z.of_nat rc) d
  = finish ((do miniFlat squares buf (map (fun k => (k, colMajorBlock rc k)) (seq 0 (cc * rc))) ;
             ret tt) d []).
Proof.
  intros Ht. unfold ParseMini. rewrite Ht, !Nat2Z.id. f_equal.
  unfold bind at 1. rewrite miniCols_flat, gridSteps_colMajor.
  unfold bind. destruct (miniFlat _ _ _ d []); reflexivity.
Qed.

Lemma nth_map_seq {A} (f : nat -> A) n k dflt :
  (k < n)%nat -> nth k (map f (seq 0 n)) dflt = f k.
Proof.
  intros Hk. rewrite (nth_indep _ _ (f 0%nat)) by (rewrite length_map, length_seq; lia).
  rewrite map_nth, seq_nth by lia. reflexivity.
Qed.

(** ** C1: an out-of-range square index *)

(** C1 (corrected). Neither variant checks the square index: when the
    [k]-th square id read is non-zero and [squareNumPlus1-1] is not an index
    of the square table, [Parse] ends in a runtime panic (index out of
    range), not in a returned error; an in-range index never makes the
    lookup panic. *)
Theorem C1_square_index_unchecked :
  (forall env dunName w h colStart rowStart squares rest d k,
     envParse env dunName w h colStart rowStart squares rest ->
     (k < w * h)%nat -> (2 * S k <= length rest)%nat ->
     u16At rest k <> 0 -> nthZ squares (u16At rest k - 1) = None ->
     exists p, Parse env dunName d = Panicked p) /\
  (forall env buf cc rc squares d k b,
     TilParse env "l1.til" = inr squares ->
     (k < cc * rc)%nat -> nth_error buf k = Some b ->
     byteZ b <> 0 -> nthZ squares (byteZ b - 1) = None ->
     exists p, ParseMini env buf (Z.of_nat cc) (Z.of_nat rc) d = Panicked p) /\
  (forall squares col row x square d s,
     nthZ squares (x - 1) = Some square -> placeSquare squares col row x d s <> RPanic PSquares).
Proof.
  split; [|split].
  - intros env dunName w h colStart rowStart squares rest d k Henv Hk Hs Hx Hn.
    rewrite (Parse_body _ _ _ _ _ _ _ _ Henv).
    rewrite (parseBody_squares squares w h colStart rowStart d rest).
    destruct (squaresFlat_reach squares (map (rowMajorBlock w colStart rowStart) (seq 0 (w * h)))
                k d rest) as [p E].
    + rewrite length_map, length_seq. exact Hk.
    + exact Hs.
    + intros d' s'. rewrite nth_map_seq by exact Hk.
      apply placeSquare_panics; [exact Hx|left; exact Hn].
    + exists p. unfold bind at 1. rewrite E. reflexivity.
  - intros env buf cc rc squares d k b Ht Hk Hb Hx Hn.
    rewrite (ParseMini_flat _ _ _ _ _ _ Ht).
    destruct (miniFlat_reach squares buf (map (fun k => (k, colMajorBlock rc k)) (seq 0 (cc * rc)))
                k d []) as [p E].
    + rewrite length_map, length_seq. exact Hk.
    + intros d' s'. rewrite nth_map_seq by exact Hk. unfold miniStep, colMajorBlock.
      rewrite Hb. apply placeSquare_panics; [exact Hx|left; exact Hn].
    + exists p. unfold bind. rewrite E. reflexivity.
  - intros squares col row x square d s Hn. exact (placeSquare_in_range squares col row x square d s Hn).
Qed.

(** C1 applied to a one-square file naming square 1 of an empty table. *)
Lemma C1_witness :
  exists p, Parse (envFile [Byte.x01; Byte.x00; Byte.x01; Byte.x00; Byte.x01; Byte.x00] 0 0 [])
                  "levels/l1data/a.dun" New = Panicked p.
Proof.
  apply (proj1 C1_square_index_unchecked _ _ 1%nat 1%nat 0 0 [] [Byte.x01; Byte.x00] New 0%nat).
  - exists "levels/l1data/a.dun", [Byte.x01; Byte.x00; Byte.x01; Byte.x00; Byte.x01; Byte.x00], "l1".
    repeat split; reflexivity.
  - lia.
  - simpl. lia.
  - vm_compute. discriminate.
  - reflexivity.
Defined.

(** C1 does not hold as stated: on that file [Parse] panics at the square
    lookup instead of returning an error. *)
Lemma C1_counterexample :
  Parse (envFile [Byte.x01; Byte.x00; Byte.x01; Byte.x00; Byte.x01; Byte.x00] 0 0 [])
        "levels/l1data/a.dun" New = Panicked PSquares /\
  ~ (exists d e, Parse (envFile [Byte.x01; Byte.x00; Byte.x01; Byte.x00; Byte.x01; Byte.x00] 0 0 [])
                       "levels/l1data/a.dun" New = Done d (Some e)).
Proof.
  split; [reflexivity|]. intros (d & e & H). vm_compute in H. discriminate.
Qed.

(** ** C2: the order in which the square ids are consumed *)

(** C2 (corrected). The full-stream [Parse] visits the square ids row-major:
    the [k]-th value read is placed at
    [(colStart + 2*(k mod dunQWidth), rowStart + 2*(k div dunQWidth))].
    The fixed-size [Parse] loops over columns outside and rows inside: the
    [k]-th buffer element is placed at [(2*(k div rowCount), 2*(k mod rowCount))]. *)
Theorem C2_square_plane_order :
  (forall squares w h colStart rowStart,
     meq (squaresRows squares w h colStart rowStart)
         (squaresFlat squares (map (rowMajorBlock w colStart rowStart) (seq 0 (w * h))))) /\
  (forall squares buf cc rc,
     meq (miniCols squares buf rc cc 0 0 0)
         (do miniFlat squares buf (map (fun k => (k, colMajorBlock rc k)) (seq 0 (cc * rc))) ;
          ret (cc * rc)%nat)).
Proof.
  split.
  - intros squares w h colStart rowStart d s.
    rewrite squaresRows_flat, gridBlocks_rowMajor. reflexivity.
  - intros squares buf cc rc d s.
    rewrite miniCols_flat, gridSteps_colMajor. reflexivity.
Qed.

(** C2 does not hold for the fixed-size variant: with a 2x2 buffer whose only
    non-zero element is the second one (k = 1), the square is placed at
    (0, 2), not at the row-major block (2, 0). *)
Lemma C2_counterexample :
  rowMajorBlock 2%nat 0 0 1%nat = (2, 0) /\
  match ParseMini (envFile [] 0 0 [sqA]) [Byte.x00; Byte.x01; Byte.x00; Byte.x00] 2 2 New with
  | Done d None => d 2 0 !! "pillarNum" = None /\ d 0 2 !! "pillarNum" = Some 5
  | _ => False
  end.
Proof. split; [reflexivity|]. vm_compute. split; reflexivity. Qed.

(** ** C3: a single square *)

Lemma seq_split k n :
  (k < n)%nat -> seq 0 n = seq 0 k ++ k :: seq (S k) (n - S k).
Proof.
  intros Hk. replace n with (k + S (n - S k))%nat at 1 by lia.
  rewrite seq_app. reflexivity.
Qed.

Lemma u16At_drop s m j : u16At (drop (2 * m) s) j = u16At s (m + j).
Proof.
  unfold u16At. rewrite skipn_skipn. replace (2 * j + 2 * m)%nat with (2 * (m + j))%nat by lia.
  reflexivity.
Qed.

Lemma readU16_drop s k :
  (2 * S k <= length s)%nat ->
  readU16 (drop (2 * k) s) = inr (u16At s k, drop (2 * S k) s).
Proof.
  intros Hs. unfold u16At.
  replace (2 * S k)%nat with (2 + 2 * k)%nat by lia. rewrite <- skipn_skipn.
  assert (Hl : (2 <= length (drop (2 * k) s))%nat) by (rewrite length_skipn; lia).
  destruct (drop (2 * k) s) as [|b0 [|b1 t]]; [simpl in Hl; lia|simpl in Hl; lia|].
  reflexivity.
Qed.

Lemma placed_lookup d c r square x y :
  placed d c r square x y !! "pillarNum"
  = match quadrantPillar c r square x y with Some v => Some v | None => d x y !! "pillarNum" end.
Proof.
  unfold placed, setAttr, quadrantPillar.
  destruct (Z.eqb_spec x c), (Z.eqb_spec x (c + 1)), (Z.eqb_spec y r), (Z.eqb_spec y (r + 1));
    try lia; cbn; rewrite ?lookup_insert_eq; reflexivity.
Qed.

Lemma squaresFlat_step squares c r bs d s square :
  (2 <= length s)%nat -> u16At s 0 <> 0 ->
  nthZ squares (u16At s 0 - 1) = Some square -> blockInGrid c r = true ->
  squaresFlat squares ((c, r) :: bs) d s = squaresFlat squares bs (placed d c r square) (drop 2 s).
Proof.
  intros Hs Hx Hn Hb. destruct s as [|b0 [|b1 s]]; [simpl in Hs; lia|simpl in Hs; lia|].
  cbn [squaresFlat]. unfold bind at 1, read. cbn [readU16].
  change (byteZ b0 + 256 * byteZ b1) with (u16At (b0 :: b1 :: s) 0).
  unfold bind. rewrite (placeSquare_ok _ _ _ _ _ _ _ Hx Hn Hb). reflexivity.
Qed.

Lemma miniFlat_zeros squares buf l d s :
  (forall e, In e l -> exists b, nth_error buf (fst e) = Some b /\ byteZ b = 0) ->
  miniFlat squares buf l d s = ROk tt d s.
Proof.
  induction l as [|[k [c r]] l IH]; intros Hz; [reflexivity|].
  cbn [miniFlat]. unfold bind, miniStep.
  destruct (Hz (k, (c, r))) as (b & Hb & H0); [left; reflexivity|]. simpl in Hb.
  rewrite Hb, H0, placeSquare_zero. apply IH. intros e He. apply Hz. right. exact He.
Qed.

(** Only the squares write pillarNum: the planes leave it alone. *)
Lemma keeps_planes_pillarNum w h colStart rowStart :
  keeps (fun _ _ k => k <> "pillarNum")
    (do planeRows "unknown" 0 (2 * h) (2 * w) colStart rowStart ;
     do planeRows "dunMonsterID" 0 (2 * h) (2 * w) colStart rowStart ;
     do planeRows "dunObjectID" 0 (2 * h) (2 * w) colStart rowStart ;
     do planeRows "transparency" 0 (2 * h) (2 * w) colStart rowStart ;
     ret tt).
Proof.
  repeat (apply keeps_bind; [eapply keeps_weaken; [|apply keeps_planeRows];
                             cbv beta; intros ? ? ? [-> _]; discriminate|intros _]).
  apply keeps_ret.
Qed.

(** A panicking [k]-th square step makes the full-stream [Parse] panic. *)
Lemma Parse_step_panics env dunName w h colStart rowStart squares rest d k :
  envParse env dunName w h colStart rowStart squares rest ->
  (k < w * h)%nat -> (2 * S k <= length rest)%nat -> u16At rest k <> 0 ->
  nthZ squares (u16At rest k - 1) = None \/
  blockInGrid (fst (rowMajorBlock w colStart rowStart k))
              (snd (rowMajorBlock w colStart rowStart k)) = false ->
  exists p, Parse env dunName d = Panicked p.
Proof.
  intros Henv Hk Hs Hx Hcase.
  rewrite (Parse_body _ _ _ _ _ _ _ _ Henv).
  rewrite (parseBody_squares squares w h colStart rowStart d rest).
  destruct (squaresFlat_reach squares (map (rowMajorBlock w colStart rowStart) (seq 0 (w * h)))
              k d rest) as [p E].
  - rewrite length_map, length_seq. exact Hk.
  - exact Hs.
  - intros d' s'. rewrite nth_map_seq by exact Hk. apply placeSquare_panics; assumption.
  - exists p. unfold bind at 1. rewrite E. reflexivity.
Qed.

Lemma ParseMini_step_panics env buf cc rc squares d k b :
  TilParse env "l1.til" = inr squares ->
  (k < cc * rc)%nat -> nth_error buf k = Some b -> byteZ b <> 0 ->
  nthZ squares (byteZ b - 1) = None \/
  blockInGrid (fst (colMajorBlock rc k)) (snd (colMajorBlock rc k)) = false ->
  exists p, ParseMini env buf (Z.of_nat cc) (Z.of_nat rc) d = Panicked p.
Proof.
  intros Ht Hk Hb Hx Hcase.
  rewrite (ParseMini_flat _ _ _ _ _ _ Ht).
  destruct (miniFlat_reach squares buf (map (fun k => (k, colMajorBlock rc k)) (seq 0 (cc * rc)))
              k d []) as [p E].
  - rewrite length_map, length_seq. exact Hk.
  - intros d' s'. rewrite nth_map_seq by exact Hk. unfold miniStep.
    destruct (colMajorBlock rc k) as [c r]. rewrite Hb.
    apply placeSquare_panics; assumption.
  - exists p. unfold bind. rewrite E. reflexivity.
Qed.

(** A square plane with a single non-zero id places exactly that square. *)
Lemma squaresFlat_single squares (f : nat -> Z * Z) n k d rest square :
  (2 * n <= length rest)%nat -> (k < n)%nat -> u16At rest k <> 0 ->
  (forall j, (j < n)%nat -> j <> k -> u16At rest j = 0) ->
  nthZ squares (u16At rest k - 1) = Some square ->
  blockInGrid (fst (f k)) (snd (f k)) = true ->
  exists s1, squaresFlat squares (map f (seq 0 n)) d rest
             = ROk tt (placed d (fst (f k)) (snd (f k)) square) s1.
Proof.
  intros Hs Hk Hx Hz Hn Hb.
  rewrite (seq_split k n Hk), map_app. cbn [map].
  rewrite (squaresFlat_app squares _ _ d rest). unfold bind at 1.
  rewrite squaresFlat_zeros; rewrite ?length_map, ?length_seq.
  2: lia.
  2: { intros j Hj. apply Hz; lia. }
  destruct (f k) as [c r] eqn:Hf. cbn [fst snd] in *.
  assert (Hk0 : u16At (drop (2 * k) rest) 0 = u16At rest k)
    by (rewrite u16At_drop; f_equal; lia).
  rewrite (squaresFlat_step squares c r _ _ _ square).
  - rewrite squaresFlat_zeros; rewrite ?length_map, ?length_seq.
    + eexists. reflexivity.
    + rewrite !length_skipn. lia.
    + intros j Hj. rewrite skipn_skipn.
      replace (2 + 2 * k)%nat with (2 * S k)%nat by lia.
      rewrite u16At_drop. apply Hz; lia.
  - rewrite length_skipn. lia.
  - rewrite Hk0. exact Hx.
  - rewrite Hk0. exact Hn.
  - exact Hb.
Qed.

Lemma miniFlat_single squares buf (g : nat -> Z * Z) n k d s b square :
  (n <= length buf)%nat -> (k < n)%nat -> nth_error buf k = Some b -> byteZ b <> 0 ->
  (forall j b', j <> k -> nth_error buf j = Some b' -> byteZ b' = 0) ->
  nthZ squares (byteZ b - 1) = Some square ->
  blockInGrid (fst (g k)) (snd (g k)) = true ->
  miniFlat squares buf (map (fun j => (j, g j)) (seq 0 n)) d s
  = ROk tt (placed d (fst (g k)) (snd (g k)) square) s.
Proof.
  intros Hl Hk Hb Hx Hz Hn Hg.
  assert (Hzero : forall a m, (a + m <= n)%nat -> (k < a \/ a + m <= k)%nat ->
            forall e, In e (map (fun j => (j, g j)) (seq a m)) ->
            exists b', nth_error buf (fst e) = Some b' /\ byteZ b' = 0).
  { intros a m Ham Hout e He. apply in_map_iff in He as (j & <- & Hj).
    apply in_seq in Hj. cbn [fst].
    destruct (nth_error buf j) as [b'|] eqn:E.
    - exists b'. split; [reflexivity|]. apply (Hz j); [lia|exact E].
    - apply nth_error_None in E. lia. }
  rewrite (seq_split k n Hk), map_app. cbn [map].
  rewrite (miniFlat_app squares buf _ _ d s). unfold bind at 1.
  rewrite miniFlat_zeros by (apply (Hzero 0%nat k); lia).
  cbn [miniFlat]. unfold bind at 1, miniStep.
  destruct (g k) as [c r] eqn:E. cbn [fst snd]. rewrite Hb.
  rewrite (placeSquare_ok _ _ _ _ _ _ _ Hx Hn Hg).
  apply miniFlat_zeros. apply (Hzero (S k) (n - S k)%nat); lia.
Qed.

(** The result of the parse, read off the end of its square loop. *)
Lemma finish_planes_pillarNum w h colStart rowStart d1 s1 d e :
  finish ((do planeRows "unknown" 0 (2 * h) (2 * w) colStart rowStart ;
           do planeRows "dunMonsterID" 0 (2 * h) (2 * w) colStart rowStart ;
           do planeRows "dunObjectID" 0 (2 * h) (2 * w) colStart rowStart ;
           do planeRows "transparency" 0 (2 * h) (2 * w) colStart rowStart ;
           ret tt) d1 s1) = Done d e ->
  forall x y, d x y !! "pillarNum" = d1 x y !! "pillarNum".
Proof.
  intros H x y. pose proof (keeps_planes_pillarNum w h colStart rowStart d1 s1) as K.
  unfold keeps in K. revert H K.
  match goal with |- finish ?t = _ -> _ => destruct t as [u d' s'|e' d'|p] end;
    cbn [finish]; intros H K; inversion H; subst; apply K; intros C; exact (C eq_refl).
Qed.

(** C3 (confirmed). A square plane whose only non-zero value is the [k]-th
    one, [S], produces exactly four pillarNum attributes, in the block of the
    [k]-th value: top, right, left and bottom of square [S-1] at [(c, r)],
    [(c+1, r)], [(c, r+1)], [(c+1, r+1)]; every other cell has no pillarNum
    (absent, not zero). For the full-stream [Parse] the block is row-major
    (see C2), for the fixed-size one column-major; a successful parse also
    implies that [S-1] indexes the square table. *)
Theorem C3_single_square :
  (forall env dunName w h colStart rowStart squares rest k d,
     envParse env dunName w h colStart rowStart squares rest ->
     (2 * (w * h) <= length rest)%nat -> (k < w * h)%nat ->
     u16At rest k <> 0 ->
     (forall j, (j < w * h)%nat -> j <> k -> u16At rest j = 0) ->
     Parse env dunName New = Done d None ->
     exists square, nthZ squares (u16At rest k - 1) = Some square /\
       forall x y, d x y !! "pillarNum"
                   = quadrantPillar (fst (rowMajorBlock w colStart rowStart k))
                                    (snd (rowMajorBlock w colStart rowStart k)) square x y) /\
  (forall env buf cc rc squares k b d,
     TilParse env "l1.til" = inr squares ->
     (cc * rc <= length buf)%nat -> (k < cc * rc)%nat ->
     nth_error buf k = Some b -> byteZ b <> 0 ->
     (forall j b', j <> k -> nth_error buf j = Some b' -> byteZ b' = 0) ->
     ParseMini env buf (Z.of_nat cc) (Z.of_nat rc) New = Done d None ->
     exists square, nthZ squares (byteZ b - 1) = Some square /\
       forall x y, d x y !! "pillarNum"
                   = quadrantPillar (fst (colMajorBlock rc k)) (snd (colMajorBlock rc k)) square x y).
Proof.
  split.
  - intros env dunName w h colStart rowStart squares rest k d Henv Hs Hk Hx Hz Hres.
    assert (Hs' : (2 * S k <= length rest)%nat) by lia.
    destruct (nthZ squares (u16At rest k - 1)) as [square|] eqn:Hn.
    2: { destruct (Parse_step_panics _ _ _ _ _ _ _ _ New k Henv Hk Hs' Hx (or_introl Hn)) as [p Hp].
         rewrite Hp in Hres. discriminate. }
    destruct (blockInGrid (fst (rowMajorBlock w colStart rowStart k))
                          (snd (rowMajorBlock w colStart rowStart k))) eqn:Hb.
    2: { destruct (Parse_step_panics _ _ _ _ _ _ _ _ New k Henv Hk Hs' Hx (or_intror Hb)) as [p Hp].
         rewrite Hp in Hres. discriminate. }
    exists square. split; [reflexivity|].
    destruct (squaresFlat_single squares (rowMajorBlock w colStart rowStart) (w * h) k New rest
                square Hs Hk Hx Hz Hn Hb) as [s1 Hsq].
    rewrite (Parse_body _ _ _ _ _ _ _ _ Henv) in Hres.
    rewrite (parseBody_squares squares w h colStart rowStart New rest) in Hres.
    unfold bind at 1 in Hres. rewrite Hsq in Hres. cbv beta in Hres.
    intros x y. rewrite (finish_planes_pillarNum _ _ _ _ _ _ _ _ Hres).
    rewrite placed_lookup. unfold New. rewrite lookup_empty.
    destruct (quadrantPillar _ _ _ _ _); reflexivity.
  - intros env buf cc rc squares k b d Ht Hl Hk Hb Hx Hz Hres.
    destruct (nthZ squares (byteZ b - 1)) as [square|] eqn:Hn.
    2: { destruct (ParseMini_step_panics _ _ _ _ _ New k b Ht Hk Hb Hx (or_introl Hn)) as [p Hp].
         rewrite Hp in Hres. discriminate. }
    destruct (blockInGrid (fst (colMajorBlock rc k)) (snd (colMajorBlock rc k))) eqn:Hg.
    2: { destruct (ParseMini_step_panics _ _ _ _ _ New k b Ht Hk Hb Hx (or_intror Hg)) as [p Hp].
         rewrite Hp in Hres. discriminate. }
    exists square. split; [reflexivity|].
    rewrite (ParseMini_flat _ _ _ _ _ _ Ht) in Hres. unfold bind in Hres.
    rewrite (miniFlat_single squares buf (colMajorBlock rc) (cc * rc) k New [] b square
               Hl Hk Hb Hx Hz Hn Hg) in Hres.
    cbn [finish ret] in Hres. injection Hres as <-.
    intros x y. rewrite placed_lookup. unfold New. rewrite lookup_empty.
    destruct (quadrantPillar _ _ _ _ _); reflexivity.
Qed.

(** C3 on a 1x1 file holding square 1 of the table [[sqA]], and on a
    2x2 buffer holding square 1 at index 3. *)
Lemma C3_witness :
  (exists square, nthZ [sqA] (u16At [Byte.x01; Byte.x00] 0 - 1) = Some square /\
     forall x y, placed New 0 0 sqA x y !! "pillarNum" = quadrantPillar 0 0 square x y) /\
  (exists square, nthZ [sqA] (byteZ Byte.x01 - 1) = Some square /\
     forall x y, placed New 2 2 sqA x y !! "pillarNum" = quadrantPillar 2 2 square x y).
Proof.
  split.
  - apply (proj1 C3_single_square
             (envFile [Byte.x01; Byte.x00; Byte.x01; Byte.x00; Byte.x01; Byte.x00] 0 0 [sqA])
             "levels/l1data/a.dun" 1%nat 1%nat 0 0 [sqA] [Byte.x01; Byte.x00] 0%nat).
    + exists "levels/l1data/a.dun", [Byte.x01; Byte.x00; Byte.x01; Byte.x00; Byte.x01; Byte.x00], "l1".
      repeat split; reflexivity.
    + simpl. lia.
    + lia.
    + vm_compute. discriminate.
    + intros j Hj Hjk. lia.
    + reflexivity.
  - apply (proj2 C3_single_square (envFile [] 0 0 [sqA])
             [Byte.x00; Byte.x00; Byte.x00; Byte.x01] 2%nat 2%nat [sqA] 3%nat Byte.x01).
    + reflexivity.
    + simpl. lia.
    + lia.
    + reflexivity.
    + vm_compute. discriminate.
    + intros j b' Hj E. destruct j as [|[|[|[|j]]]]; cbn in E;
        try (injection E as <-; reflexivity); try lia; destruct j; discriminate.
    + reflexivity.
Defined.

(** ** C7: level names *)

(** C7 (confirmed). [GetLevelName] maps the directory part of the relative
    path: [levels/l1data/] to [l1], [levels/l2data/] to [l2],
    [levels/l3data/] to [l3], [levels/l4data/] to [l4], [levels/towndata/]
    to [town], and any other directory to an error (no level name). *)
Theorem C7_level_names :
  forall env dunName rel,
    GetRelPath env dunName = inr rel ->
    let dunDir := fst (pathSplit rel) in
    (dunDir = "levels/l1data/" -> GetLevelName env dunName = inr "l1") /\
    (dunDir = "levels/l2data/" -> GetLevelName env dunName = inr "l2") /\
    (dunDir = "levels/l3data/" -> GetLevelName env dunName = inr "l3") /\
    (dunDir = "levels/l4data/" -> GetLevelName env dunName = inr "l4") /\
    (dunDir = "levels/towndata/" -> GetLevelName env dunName = inr "town") /\
    (dunDir <> "levels/l1data/" -> dunDir <> "levels/l2data/" -> dunDir <> "levels/l3data/" ->
     dunDir <> "levels/l4data/" -> dunDir <> "levels/towndata/" ->
     exists e, GetLevelName env dunName = inl e).
Proof.
  intros env dunName rel Hrel dunDir. unfold GetLevelName. rewrite Hrel. fold dunDir.
  repeat split; try (intros ->; reflexivity).
  intros H1 H2 H3 H4 H5.
  destruct (String.eqb_spec dunDir "levels/l1data/"); [contradiction|].
  destruct (String.eqb_spec dunDir "levels/l2data/"); [contradiction|].
  destruct (String.eqb_spec dunDir "levels/l3data/"); [contradiction|].
  destruct (String.eqb_spec dunDir "levels/l4data/"); [contradiction|].
  destruct (String.eqb_spec dunDir "levels/towndata/"); [contradiction|].
  eexists. reflexivity.
Qed.

(** C7 on [levels/l2data/foo.dun] and [levels/unknown/foo.dun]. *)
Lemma C7_witness :
  GetLevelName (envFile [] 0 0 []) "levels/l2data/foo.dun" = inr "l2" /\
  exists e, GetLevelName (envFile [] 0 0 []) "levels/unknown/foo.dun" = inl e.
Proof.
  split.
  - apply (C7_level_names (envFile [] 0 0 []) "levels/l2data/foo.dun" "levels/l2data/foo.dun");
      reflexivity.
  - apply (C7_level_names (envFile [] 0 0 []) "levels/unknown/foo.dun" "levels/unknown/foo.dun");
      [reflexivity|vm_compute; discriminate ..].
Defined.

(** ** C5: the pillar rectangle *)

(** C5 (corrected). [GetPillarRect] builds its rectangle with [image.Rect],
    which orders the bounds of each axis: with
    [x0 = mapWidth/2 - blockWidth - row*blockWidth + col*blockWidth] and
    [y0 = row*(blockHeight/2) + col*(blockHeight/2)] (Go's truncating
    division), [minX = min(x0, x0+pillarWidth)], [maxX = max(x0, x0+pillarWidth)],
    [minY = min(y0, y0+pillarHeight)], [maxY = max(y0, y0+pillarHeight)].
    So for a non-negative pillar width and height, [minX = x0], [minY = y0],
    [maxX = minX + pillarWidth], [maxY = minY + pillarHeight]; for a negative
    pillar height, [minY] and [maxY] come out swapped
    ([minY = y0 + pillarHeight], [maxY = y0]). For all arguments, one more
    [col] shifts [minX] by [+blockWidth], one more [row] by [-blockWidth]. *)
Theorem C5_pillar_rect :
  forall BW BH PW col row mapWidth pillarHeight,
    let x0 := Z.quot mapWidth 2 - BW - row * BW + col * BW in
    let y0 := row * Z.quot BH 2 + col * Z.quot BH 2 in
    let r := GetPillarRect BW BH PW col row mapWidth pillarHeight in
    (rMinX r = Z.min x0 (x0 + PW) /\ rMaxX r = Z.max x0 (x0 + PW) /\
     rMinY r = Z.min y0 (y0 + pillarHeight) /\ rMaxY r = Z.max y0 (y0 + pillarHeight)) /\
    (0 <= PW -> 0 <= pillarHeight ->
     rMinX r = x0 /\ rMinY r = y0 /\
     rMaxX r = rMinX r + PW /\ rMaxY r = rMinY r + pillarHeight) /\
    (pillarHeight < 0 -> rMinY r = y0 + pillarHeight /\ rMaxY r = y0) /\
    rMinX (GetPillarRect BW BH PW (col + 1) row mapWidth pillarHeight) - rMinX r = BW /\
    rMinX (GetPillarRect BW BH PW col (row + 1) mapWidth pillarHeight) - rMinX r = - BW.
Proof.
  intros BW BH PW col row mapWidth pillarHeight x0 y0 r. subst x0 y0 r.
  unfold GetPillarRect, Rect.
  repeat match goal with |- context [?a >? ?b] =>
    let E := fresh "E" in destruct (Z.gtb_spec a b) as [E|E] end;
  cbn; repeat split; intros; lia.
Qed.

(** C5 with blocks of 32x32 and pillars 64 wide and 100 high, and with a
    pillar height of -1, where [minY] and [maxY] are swapped. *)
Lemma C5_witness :
  (0 <= 64 /\ 0 <= 100 /\
   rMinX (GetPillarRect 32 32 64 3 1 640 100) = Z.quot 640 2 - 32 - 1 * 32 + 3 * 32) /\
  (-1 < 0 /\ rMinY (GetPillarRect 32 32 64 0 0 0 (-1)) = 0 * Z.quot 32 2 + 0 * Z.quot 32 2 + -1).
Proof.
  split.
  - split; [lia|]. split; [lia|].
    apply (proj1 (proj1 (proj2 (C5_pillar_rect 32 32 64 3 1 640 100)) ltac:(lia) ltac:(lia))).
  - split; [lia|].
    apply (proj1 (proj1 (proj2 (proj2 (C5_pillar_rect 32 32 64 0 0 0 (-1)))) ltac:(lia))).
Defined.

(** C5 does not hold for a negative [pillarHeight]: [image.Rect] swaps the
    bounds and [minY] is [-1], not [row*(blockHeight/2) + col*(blockHeight/2) = 0]. *)
Lemma C5_counterexample :
  rMinY (GetPillarRect 32 32 64 0 0 0 (-1)) = -1 /\
  rMinY (GetPillarRect 32 32 64 0 0 0 (-1)) <> 0 * Z.quot 32 2 + 0 * Z.quot 32 2.
Proof. split; [reflexivity|]. vm_compute. discriminate. Qed.

(** ** C10: the frame of the full-stream parse *)

Lemma keeps_parseBody squares w h colStart rowStart :
  keeps (fun x y _ => colStart <= x < colStart + 2 * Z.of_nat w /\
                      rowStart <= y < rowStart + 2 * Z.of_nat h)
        (parseBody squares w h colStart rowStart).
Proof.
  unfold parseBody. apply keeps_bind.
  { eapply keeps_weaken; [|apply keeps_squaresRows]. cbv beta. intros ? ? ? [_ ?]. lia. }
  intros _.
  repeat (apply keeps_bind; [eapply keeps_weaken; [|apply keeps_planeRows];
                             cbv beta; intros ? ? ? [_ ?]; lia|intros _]).
  apply keeps_ret.
Qed.

(** C10 (confirmed). Starting from a fresh grid, every cell outside
    [colStart <= col < colStart + 2*quadWidth], [rowStart <= row < rowStart + 2*quadHeight]
    is still an empty attribute map when [Parse] returns, successfully (and
    also when it returns an error). *)
Theorem C10_parse_frame :
  forall env dunName w h colStart rowStart squares rest d err,
    envParse env dunName w h colStart rowStart squares rest ->
    Parse env dunName New = Done d err ->
    forall x y,
      ~ (colStart <= x < colStart + 2 * Z.of_nat w /\ rowStart <= y < rowStart + 2 * Z.of_nat h) ->
      d x y = ∅.
Proof.
  intros env dunName w h colStart rowStart squares rest d err Henv Hres x y Hout.
  rewrite (Parse_body _ _ _ _ _ _ _ _ Henv) in Hres.
  pose proof (keeps_parseBody squares w h colStart rowStart New rest) as K. unfold keeps in K.
  revert Hres K.
  destruct (parseBody squares w h colStart rowStart New rest) as [u d' s'|e' d'|p];
    cbn [finish]; intros Hres K; inversion Hres; subst;
    apply map_eq; intros k; rewrite (K x y k Hout); reflexivity.
Qed.

(** C10 on the 1x1 file holding square 1: cell (5, 5) stays empty. *)
Lemma C10_witness : placed New 0 0 sqA 5 5 = ∅.
Proof.
  apply (C10_parse_frame
           (envFile [Byte.x01; Byte.x00; Byte.x01; Byte.x00; Byte.x01; Byte.x00] 0 0 [sqA])
           "levels/l1data/a.dun" 1%nat 1%nat 0 0 [sqA] [Byte.x01; Byte.x00] _ None).
  - exists "levels/l1data/a.dun", [Byte.x01; Byte.x00; Byte.x01; Byte.x00; Byte.x01; Byte.x00], "l1".
    repeat split; reflexivity.
  - reflexivity.
  - simpl. lia.
Defined.

(** ** C4: end of input in a trailing plane *)

Lemma parseBody_planes squares w h colStart rowStart :
  meq (parseBody squares w h colStart rowStart)
      (do squaresRows squares w h colStart rowStart ;
       planesFrom ["unknown"; "dunMonsterID"; "dunObjectID"; "transparency"]
                  (2 * h) (2 * w) colStart rowStart).
Proof. intros d s. reflexivity. Qed.

Lemma planeRow_full key i j n col row d s :
  (2 * n <= length s)%nat ->
  (forall m, (m < n)%nat -> inGrid (col + Z.of_nat m) row = true) ->
  exists d', planeRow key i j n col row d s = ROk tt d' (drop (2 * n) s).
Proof.
  revert j col d s. induction n as [|n IH]; intros j col d s Hs Hg; [eexists; reflexivity|].
  destruct s as [|b0 [|b1 s]]; [simpl in Hs; lia|simpl in Hs; lia|].
  cbn [planeRow]. unfold bind at 1, read. cbn [readU16]. unfold bind, write.
  assert (H0 : inGrid col row = true) by (rewrite <- (Z.add_0_r col); apply (Hg 0%nat); lia).
  rewrite H0.
  destruct (IH (S j) (col + 1) (setAttr d col row key (byteZ b0 + 256 * byteZ b1)) s)
    as [d' E].
  - simpl in Hs. lia.
  - intros m Hm. replace (col + 1 + Z.of_nat m) with (col + Z.of_nat (S m)) by lia.
    apply Hg. lia.
  - exists d'. rewrite E. f_equal. replace (2 * S n)%nat with (S (S (2 * n))) by lia. reflexivity.
Qed.

Lemma planeRow_short key i j n col row d s :
  (length s < 2 * n)%nat ->
  (forall m, (m < n)%nat -> inGrid (col + Z.of_nat m) row = true) ->
  exists e d', planeRow key i j n col row d s = RRet e d' /\
               (e = None <-> s = [] /\ i = 0%nat /\ j = 0%nat).
Proof.
  revert j col d s. induction n as [|n IH]; intros j col d s Hs Hg; [lia|].
  destruct s as [|b0 [|b1 s]].
  - cbn [planeRow]. unfold bind, read. cbn [readU16 isEOF andb].
    destruct (Nat.eqb_spec i 0), (Nat.eqb_spec j 0); cbn [andb];
      eexists; eexists; (split; [reflexivity|]); split; intros H; try discriminate;
      try (destruct H as (_ & ? & ?); contradiction); auto.
  - cbn [planeRow]. unfold bind, read. cbn [readU16 isEOF andb].
    eexists; eexists; split; [reflexivity|]. split; [discriminate|intros [? _]; discriminate].
  - cbn [planeRow]. unfold bind at 1, read. cbn [readU16]. unfold bind, write.
    assert (H0 : inGrid col row = true) by (rewrite <- (Z.add_0_r col); apply (Hg 0%nat); lia).
    rewrite H0.
    destruct (IH (S j) (col + 1) (setAttr d col row key (byteZ b0 + 256 * byteZ b1)) s)
      as (e & d' & E & He).
    + simpl in Hs. lia.
    + intros m Hm. replace (col + 1 + Z.of_nat m) with (col + Z.of_nat (S m)) by lia.
      apply Hg. lia.
    + exists e, d'. rewrite E. split; [reflexivity|]. rewrite He.
      split; intros (H1 & H2 & H3); [discriminate H3|discriminate H1].
Qed.

Lemma planeRows_full key i n w colStart row d s :
  (2 * (n * w) <= length s)%nat ->
  (forall x y, colStart <= x < colStart + Z.of_nat w -> row <= y < row + Z.of_nat n ->
               inGrid x y = true) ->
  exists d', planeRows key i n w colStart row d s = ROk tt d' (drop (2 * (n * w)) s).
Proof.
  revert i row d s. induction n as [|n IH]; intros i row d s Hs Hg; [eexists; reflexivity|].
  cbn [planeRows]. unfold bind at 1.
  destruct (planeRow_full key i 0 w colStart row d s) as [d1 E1].
  - lia.
  - intros m Hm. apply Hg; lia.
  - rewrite E1.
    destruct (IH (S i) (row + 1) d1 (drop (2 * w) s)) as [d' E].
    + rewrite length_skipn. lia.
    + intros x y Hx Hy. apply Hg; lia.
    + exists d'. rewrite E, skipn_skipn. f_equal. f_equal. lia.
Qed.

Lemma planeRows_short key i n w colStart row d s :
  (length s < 2 * (n * w))%nat ->
  (forall x y, colStart <= x < colStart + Z.of_nat w -> row <= y < row + Z.of_nat n ->
               inGrid x y = true) ->
  exists e d', planeRows key i n w colStart row d s = RRet e d' /\
               (e = None <-> s = [] /\ i = 0%nat).
Proof.
  revert i row d s. induction n as [|n IH]; intros i row d s Hs Hg; [lia|].
  cbn [planeRows]. unfold bind at 1.
  destruct (le_lt_dec (2 * w) (length s)) as [Hl|Hl].
  - destruct (planeRow_full key i 0 w colStart row d s) as [d1 E1]; [lia|intros m Hm; apply Hg; lia|].
    rewrite E1.
    destruct (IH (S i) (row + 1) d1 (drop (2 * w) s)) as (e & d' & E & He).
    + rewrite length_skipn. lia.
    + intros x y Hx Hy. apply Hg; lia.
    + exists e, d'. rewrite E. split; [reflexivity|]. rewrite He.
      split; intros [H1 H2]; [discriminate H2|subst s; simpl in Hl; lia].
  - destruct (planeRow_short key i 0 w colStart row d s) as (e & d' & E & He);
      [lia|intros m Hm; apply Hg; lia|].
    exists e, d'. rewrite E. split; [reflexivity|]. rewrite He. tauto.
Qed.

Lemma planesFrom_cases keys H W colStart rowStart d s :
  (forall x y, colStart <= x < colStart + Z.of_nat W -> rowStart <= y < rowStart + Z.of_nat H ->
               inGrid x y = true) ->
  ((length keys * (2 * (H * W)) <= length s)%nat ->
     exists d' s', planesFrom keys H W colStart rowStart d s = ROk tt d' s') /\
  (forall p, (p < length keys)%nat -> length s = (p * (2 * (H * W)))%nat -> (0 < H * W)%nat ->
     exists d', planesFrom keys H W colStart rowStart d s = RRet None d') /\
  (forall p, (p < length keys)%nat ->
     (p * (2 * (H * W)) < length s < (p + 1) * (2 * (H * W)))%nat ->
     exists e d', planesFrom keys H W colStart rowStart d s = RRet (Some e) d').
Proof.
  intros Hg. revert d s. induction keys as [|key keys IH]; intros d s.
  { split; [intros _; do 2 eexists; reflexivity|]. split; intros p Hp; simpl in Hp; lia. }
  cbn [planesFrom length]. split; [|split].
  - intros Hs.
    destruct (planeRows_full key 0 H W colStart rowStart d s) as [d1 E1]; [lia|exact Hg|].
    unfold bind at 1. rewrite E1.
    apply (proj1 (IH d1 _)). rewrite length_skipn. lia.
  - intros [|p] Hp Hs HQ.
    + destruct (planeRows_short key 0 H W colStart rowStart d s) as (e & d' & E & He);
        [lia|exact Hg|].
      destruct s; [|simpl in Hs; lia].
      exists d'. unfold bind. rewrite E. f_equal. apply He. split; reflexivity.
    + destruct (planeRows_full key 0 H W colStart rowStart d s) as [d1 E1]; [lia|exact Hg|].
      unfold bind at 1. rewrite E1.
      apply (proj1 (proj2 (IH d1 _)) p); [lia| |exact HQ]. rewrite length_skipn. lia.
  - intros [|p] Hp Hs.
    + destruct (planeRows_short key 0 H W colStart rowStart d s) as (e & d' & E & He);
        [lia|exact Hg|].
      destruct e as [e|]; [|destruct (proj1 He eq_refl) as [-> _]; simpl in Hs; lia].
      exists e, d'. unfold bind. rewrite E. reflexivity.
    + destruct (planeRows_full key 0 H W colStart rowStart d s) as [d1 E1]; [lia|exact Hg|].
      unfold bind at 1. rewrite E1.
      apply (proj2 (proj2 (IH d1 _)) p); [lia|]. rewrite length_skipn. lia.
Qed.

(** C4 (confirmed). Once the square plane has been read (leaving the bytes
    [s]), let [P] be the byte size of one trailing plane. If the input ends
    exactly at the start of trailing plane [p] (unknown, dunMonsterID,
    dunObjectID or transparency), [Parse] returns no error; if it ends
    anywhere strictly inside plane [p], [Parse] returns an error (that of
    [binary.Read]). *)
Theorem C4_trailing_planes_truncation :
  forall env dunName w h colStart rowStart squares rest d0 d1 s,
    envParse env dunName w h colStart rowStart squares rest ->
    squaresRows squares w h colStart rowStart d0 rest = ROk tt d1 s ->
    0 <= colStart -> colStart + 2 * Z.of_nat w <= ColMax ->
    0 <= rowStart -> rowStart + 2 * Z.of_nat h <= RowMax ->
    let P := (2 * ((2 * h) * (2 * w)))%nat in
    (forall p, (p < 4)%nat -> length s = (p * P)%nat ->
       exists d, Parse env dunName d0 = Done d None) /\
    (forall p, (p < 4)%nat -> (p * P < length s < (p + 1) * P)%nat ->
       exists e d, Parse env dunName d0 = Done d (Some e)).
Proof.
  intros env dunName w h colStart rowStart squares rest d0 d1 s Henv Hsq Hc0 Hc1 Hr0 Hr1 P.
  assert (HE : forall d e, Parse env dunName d0 = Done d e <->
            finish (planesFrom ["unknown"; "dunMonsterID"; "dunObjectID"; "transparency"]
                               (2 * h) (2 * w) colStart rowStart d1 s) = Done d e).
  { intros d e. rewrite (Parse_body _ _ _ _ _ _ _ _ Henv), (parseBody_planes _ _ _ _ _ d0 rest).
    unfold bind at 1. rewrite Hsq. reflexivity. }
  assert (Hg : forall x y, colStart <= x < colStart + Z.of_nat (2 * w) ->
                 rowStart <= y < rowStart + Z.of_nat (2 * h) -> inGrid x y = true).
  { intros x y Hx Hy. unfold inGrid, ColMax, RowMax in *.
    rewrite Nat2Z.inj_mul in Hx, Hy.
    repeat (apply andb_true_intro; split); apply Z.leb_le || apply Z.ltb_lt; lia. }
  pose proof (planesFrom_cases ["unknown"; "dunMonsterID"; "dunObjectID"; "transparency"]
                (2 * h) (2 * w) colStart rowStart d1 s Hg) as [C0' [C1' C2']].
  split.
  - intros p Hp Hs.
    destruct (Nat.eq_dec ((2 * h) * (2 * w))%nat 0%nat) as [H0|H0].
    + destruct C0' as (d' & s' & E); [simpl; subst P; rewrite H0 in *; lia|].
      exists d'. apply HE. rewrite E. reflexivity.
    + destruct (C1' p) as [d' E]; [simpl; lia|exact Hs|lia|].
      exists d'. apply HE. rewrite E. reflexivity.
  - intros p Hp Hs.
    destruct (C2' p) as (e & d' & E); [simpl; lia|exact Hs|].
    exists e, d'. apply HE. rewrite E. reflexivity.
Qed.

(** C4 on a 1x1 file with an empty square: it ends at the start of the
    unknown plane (no error), or one value into it (an error). *)
Lemma C4_witness :
  (exists d, Parse (envFile [Byte.x01; Byte.x00; Byte.x01; Byte.x00; Byte.x00; Byte.x00] 0 0 [sqA])
                   "levels/l1data/a.dun" New = Done d None) /\
  (exists e d, Parse (envFile [Byte.x01; Byte.x00; Byte.x01; Byte.x00; Byte.x00; Byte.x00;
                               Byte.x07; Byte.x00] 0 0 [sqA])
                     "levels/l1data/a.dun" New = Done d (Some e)).
Proof.
  split.
  - apply (proj1 (C4_trailing_planes_truncation
             (envFile [Byte.x01; Byte.x00; Byte.x01; Byte.x00; Byte.x00; Byte.x00] 0 0 [sqA])
             "levels/l1data/a.dun" 1%nat 1%nat 0 0 [sqA] [Byte.x00; Byte.x00] New New []
             ltac:(exists "levels/l1data/a.dun",
                     [Byte.x01; Byte.x00; Byte.x01; Byte.x00; Byte.x00; Byte.x00], "l1";
                   repeat split; reflexivity)
             eq_refl ltac:(lia) ltac:(unfold ColMax; lia) ltac:(lia) ltac:(unfold RowMax; lia))
             0%nat); simpl; lia.
  - apply (proj2 (C4_trailing_planes_truncation
             (envFile [Byte.x01; Byte.x00; Byte.x01; Byte.x00; Byte.x00; Byte.x00;
                       Byte.x07; Byte.x00] 0 0 [sqA])
             "levels/l1data/a.dun" 1%nat 1%nat 0 0 [sqA] [Byte.x00; Byte.x00; Byte.x07; Byte.x00]
             New New [Byte.x07; Byte.x00]
             ltac:(exists "levels/l1data/a.dun",
                     [Byte.x01; Byte.x00; Byte.x01; Byte.x00; Byte.x00; Byte.x00;
                      Byte.x07; Byte.x00], "l1";
                   repeat split; reflexivity)
             eq_refl ltac:(lia) ltac:(unfold ColMax; lia) ltac:(lia) ltac:(unfold RowMax; lia))
             0%nat); simpl; lia.
Defined.

(** ** C8: grid bounds *)

Lemma noPanic_bind {A B} p (m : M A) (f : A -> M B) :
  noPanicAt p m -> (forall a, noPanicAt p (f a)) -> noPanicAt p (bind m f).
Proof.
  intros Hm Hf d s. specialize (Hm d s). unfold bind.
  destruct (m d s) as [a d1 s1|e d1|q]; [apply Hf|discriminate|intros E; injection E as ->; apply Hm; reflexivity].
Qed.

Lemma noPanic_ret {A} p (a : A) : noPanicAt p (ret a).
Proof. intros d s. discriminate. Qed.

Lemma noPanic_read p : noPanicAt p read.
Proof. intros d s. unfold read. destruct (readU16 s) as [e|[x s']]; discriminate. Qed.

Lemma noPanic_write key col row v :
  inGrid col row = true -> noPanicAt PGrid (write key col row v).
Proof. intros Hg d s. unfold write. rewrite Hg. discriminate. Qed.

Lemma noPanic_placeSquare squares col row x :
  blockInGrid col row = true -> noPanicAt PGrid (placeSquare squares col row x).
Proof.
  intros Hb d s. destruct (Z.eqb_spec x 0) as [->|Hx].
  { rewrite placeSquare_zero. discriminate. }
  destruct (nthZ squares (x - 1)) as [square|] eqn:Hn.
  - rewrite (placeSquare_ok _ _ _ _ _ _ _ Hx Hn Hb). discriminate.
  - unfold placeSquare. apply Z.eqb_neq in Hx. rewrite Hx, Hn. discriminate.
Qed.

Lemma blockInGrid_region (P : Z -> Z -> Prop) col row :
  (forall x y, P x y -> inGrid x y = true) ->
  P col row -> P (col + 1) row -> P col (row + 1) -> P (col + 1) (row + 1) ->
  blockInGrid col row = true.
Proof.
  intros Hg H1 H2 H3 H4. unfold blockInGrid. rewrite !Hg by assumption. reflexivity.
Qed.

Lemma noPanic_squaresRow squares n col row :
  (forall x y, col <= x < col + 2 * Z.of_nat n -> row <= y < row + 2 -> inGrid x y = true) ->
  noPanicAt PGrid (squaresRow squares n col row).
Proof.
  revert col. induction n as [|n IH]; intros col Hg; [apply noPanic_ret|].
  cbn [squaresRow]. apply noPanic_bind; [apply noPanic_read|]. intros [e|x].
  - intros d s. discriminate.
  - apply noPanic_bind.
    + apply noPanic_placeSquare.
      apply (blockInGrid_region (fun x y => col <= x < col + 2 * Z.of_nat (S n) /\ row <= y < row + 2));
        [intros ? ? [? ?]; apply Hg; lia|lia ..].
    + intros _. apply IH. intros x' y' Hx Hy. apply Hg; lia.
Qed.

Lemma noPanic_squaresRows squares w n colStart row :
  (forall x y, colStart <= x < colStart + 2 * Z.of_nat w -> row <= y < row + 2 * Z.of_nat n ->
               inGrid x y = true) ->
  noPanicAt PGrid (squaresRows squares w n colStart row).
Proof.
  revert row. induction n as [|n IH]; intros row Hg; [apply noPanic_ret|].
  cbn [squaresRows]. apply noPanic_bind.
  - apply noPanic_squaresRow. intros x y Hx Hy. apply Hg; lia.
  - intros _. apply IH. intros x y Hx Hy. apply Hg; lia.
Qed.

Lemma noPanic_planeRow key i j n col row :
  (forall x, col <= x < col + Z.of_nat n -> inGrid x row = true) ->
  noPanicAt PGrid (planeRow key i j n col row).
Proof.
  revert j col. induction n as [|n IH]; intros j col Hg; [apply noPanic_ret|].
  cbn [planeRow]. apply noPanic_bind; [apply noPanic_read|]. intros [e|x].
  - intros d s. destruct (isEOF e && Nat.eqb i 0 && Nat.eqb j 0); discriminate.
  - apply noPanic_bind.
    + apply noPanic_write. apply Hg. lia.
    + intros _. apply IH. intros x' Hx. apply Hg. lia.
Qed.

Lemma noPanic_planeRows key i n w colStart row :
  (forall x y, colStart <= x < colStart + Z.of_nat w -> row <= y < row + Z.of_nat n ->
               inGrid x y = true) ->
  noPanicAt PGrid (planeRows key i n w colStart row).
Proof.
  revert i row. induction n as [|n IH]; intros i row Hg; [apply noPanic_ret|].
  cbn [planeRows]. apply noPanic_bind.
  - apply noPanic_planeRow. intros x Hx. apply Hg; lia.
  - intros _. apply IH. intros x y Hx Hy. apply Hg; lia.
Qed.

Lemma noPanic_parseBody squares w h colStart rowStart :
  0 <= colStart -> colStart + 2 * Z.of_nat w <= ColMax ->
  0 <= rowStart -> rowStart + 2 * Z.of_nat h <= RowMax ->
  noPanicAt PGrid (parseBody squares w h colStart rowStart).
Proof.
  intros Hc0 Hc1 Hr0 Hr1.
  assert (Hg : forall x y, colStart <= x < colStart + 2 * Z.of_nat w ->
                 rowStart <= y < rowStart + 2 * Z.of_nat h -> inGrid x y = true).
  { intros x y Hx Hy. unfold inGrid, ColMax, RowMax in *.
    repeat (apply andb_true_intro; split); apply Z.leb_le || apply Z.ltb_lt; lia. }
  unfold parseBody. apply noPanic_bind; [apply noPanic_squaresRows; exact Hg|intros _].
  repeat (apply noPanic_bind; [apply noPanic_planeRows; intros x y Hx Hy; apply Hg;
                               rewrite Nat2Z.inj_mul in *; lia|intros _]).
  apply noPanic_ret.
Qed.

(** C8 (corrected). The writes of the full-stream [Parse] are not
    bounds-checked. If [0 <= colStart], [colStart + 2*quadWidth <= 112],
    [0 <= rowStart] and [rowStart + 2*quadHeight <= 112], no grid access of
    [Parse] is out of range (it never panics at [dungeon[col][row]]).
    The lower bounds are needed too: a negative [colStart] or [rowStart]
    (the ini file may give one) also panics. If a non-zero square id with a
    valid index is read for a block that is not inside the grid, [Parse]
    panics (the grid write, or an earlier panic), it does not return an error. *)
Theorem C8_grid_bounds :
  (forall env dunName w h colStart rowStart squares rest d,
     envParse env dunName w h colStart rowStart squares rest ->
     0 <= colStart -> colStart + 2 * Z.of_nat w <= ColMax ->
     0 <= rowStart -> rowStart + 2 * Z.of_nat h <= RowMax ->
     Parse env dunName d <> Panicked PGrid) /\
  (forall env dunName w h colStart rowStart squares rest d k square,
     envParse env dunName w h colStart rowStart squares rest ->
     (k < w * h)%nat -> (2 * S k <= length rest)%nat -> u16At rest k <> 0 ->
     nthZ squares (u16At rest k - 1) = Some square ->
     blockInGrid (fst (rowMajorBlock w colStart rowStart k))
                 (snd (rowMajorBlock w colStart rowStart k)) = false ->
     exists p, Parse env dunName d = Panicked p).
Proof.
  split.
  - intros env dunName w h colStart rowStart squares rest d Henv Hc0 Hc1 Hr0 Hr1.
    rewrite (Parse_body _ _ _ _ _ _ _ _ Henv).
    pose proof (noPanic_parseBody squares w h colStart rowStart Hc0 Hc1 Hr0 Hr1 d rest) as H.
    destruct (parseBody squares w h colStart rowStart d rest); cbn [finish]; try discriminate.
    intros E. injection E as ->. contradiction.
  - intros env dunName w h colStart rowStart squares rest d k square Henv Hk Hs Hx Hn Hb.
    exact (Parse_step_panics _ _ _ _ _ _ _ _ d k Henv Hk Hs Hx (or_intror Hb)).
Qed.

(** C8 on a 1x1 file at (0, 0), and with its block at column 111. *)
Lemma C8_witness :
  Parse (envFile [Byte.x01; Byte.x00; Byte.x01; Byte.x00; Byte.x01; Byte.x00] 0 0 [sqA])
        "levels/l1data/a.dun" New <> Panicked PGrid /\
  exists p, Parse (envFile [Byte.x01; Byte.x00; Byte.x01; Byte.x00; Byte.x01; Byte.x00] 111 0 [sqA])
                  "levels/l1data/a.dun" New = Panicked p.
Proof.
  split.
  - apply (proj1 C8_grid_bounds _ _ 1%nat 1%nat 0 0 [sqA] [Byte.x01; Byte.x00] New);
      [|lia|unfold ColMax; lia|lia|unfold RowMax; lia].
    exists "levels/l1data/a.dun", [Byte.x01; Byte.x00; Byte.x01; Byte.x00; Byte.x01; Byte.x00], "l1".
    repeat split; reflexivity.
  - apply (proj2 C8_grid_bounds _ _ 1%nat 1%nat 111 0 [sqA] [Byte.x01; Byte.x00] New 0%nat sqA).
    + exists "levels/l1data/a.dun", [Byte.x01; Byte.x00; Byte.x01; Byte.x00; Byte.x01; Byte.x00], "l1".
      repeat split; reflexivity.
    + lia.
    + simpl. lia.
    + vm_compute. discriminate.
    + reflexivity.
    + reflexivity.
Defined.

(** C8 does not hold as stated: with [colStart = -2] and a 1x1 file,
    [colStart + 2*quadWidth <= 112] and [rowStart + 2*quadHeight <= 112],
    yet the write at column [-2] panics. *)
Lemma C8_counterexample :
  -2 + 2 * Z.of_nat 1 <= ColMax /\ 0 + 2 * Z.of_nat 1 <= RowMax /\
  Parse (envFile [Byte.x01; Byte.x00; Byte.x01; Byte.x00; Byte.x01; Byte.x00] (-2) 0 [sqA])
        "levels/l1data/a.dun" New = Panicked PGrid.
Proof. unfold ColMax, RowMax. split; [lia|]. split; [lia|]. reflexivity. Qed.

(** ** C9: the buffer of the fixed-size parse *)

Lemma placeSquare_not_buffer squares col row x d s :
  placeSquare squares col row x d s <> RPanic PBuffer.
Proof.
  unfold placeSquare. destruct (x =? 0); [discriminate|].
  destruct (nthZ squares (x - 1)); [|discriminate].
  unfold bind, write.
  repeat match goal with |- context [if inGrid ?a ?b then _ else _] => destruct (inGrid a b) end;
    discriminate.
Qed.

Lemma miniFlat_no_buffer_panic squares buf l d s :
  (forall e, In e l -> (fst e < length buf)%nat) ->
  miniFlat squares buf l d s <> RPanic PBuffer.
Proof.
  revert d s. induction l as [|[k [c r]] l IH]; intros d s Hl; [discriminate|].
  cbn [miniFlat]. unfold bind at 1, miniStep.
  destruct (nth_error buf k) as [b|] eqn:E.
  - pose proof (placeSquare_not_buffer squares c r (byteZ b) d s) as Hp.
    destruct (placeSquare squares c r (byteZ b) d s) as [u d1 s1|e d1|p]; [|discriminate|exact Hp].
    apply IH. intros e' He'. apply Hl. right. exact He'.
  - apply nth_error_None in E. specialize (Hl (k, (c, r)) (or_introl eq_refl)). simpl in Hl. lia.
Qed.

Lemma miniFlat_ext squares buf1 buf2 l :
  (forall e, In e l -> nth_error buf1 (fst e) = nth_error buf2 (fst e)) ->
  meq (miniFlat squares buf1 l) (miniFlat squares buf2 l).
Proof.
  induction l as [|[k [c r]] l IH]; intros Hl d s; [reflexivity|].
  cbn [miniFlat]. unfold bind, miniStep.
  pose proof (Hl (k, (c, r)) (or_introl eq_refl)) as Hk; cbn [fst] in Hk; rewrite Hk.
  destruct (nth_error buf2 k); [|reflexivity].
  destruct (placeSquare squares c r (byteZ b) d s); try reflexivity.
  apply IH. intros e He. apply Hl. right. exact He.
Qed.

Lemma nth_error_firstn_lt {A} (l : list A) n k :
  (k < n)%nat -> nth_error (firstn n l) k = nth_error l k.
Proof.
  revert n k. induction l as [|a l IH]; intros n k Hk.
  - destruct n; reflexivity.
  - destruct n as [|n]; [lia|]. destruct k as [|k]; [reflexivity|]. cbn. apply IH. lia.
Qed.

Lemma miniCols_no_rows squares buf n k col rowStart d s :
  miniCols squares buf 0 n k col rowStart d s = ROk k d s.
Proof.
  revert k col. induction n as [|n IH]; intros k col; [reflexivity|].
  cbn [miniCols miniRows]. unfold bind at 1, ret at 1. apply IH.
Qed.

(** C9 (corrected). For non-negative counts [colCount] and [rowCount]: if
    [len(squareIDsPlus1) >= colCount*rowCount], the fixed-size [Parse] never
    indexes the buffer out of range and depends only on its first
    [colCount*rowCount] elements; if the buffer is shorter, [Parse] panics
    (at the first missing element, or earlier), it does not return an error.
    If [colCount <= 0] or [rowCount <= 0], the inner loop body never runs
    (with [colCount > 0 >= rowCount] the outer loop still runs, with an
    empty inner loop): no element is read, and [Parse] returns nil with the
    grid unchanged, whatever the buffer and whatever [colCount*rowCount]. *)
Theorem C9_buffer_reads :
  (forall env buf cc rc squares d,
     TilParse env "l1.til" = inr squares ->
     (cc * rc <= length buf)%nat ->
     ParseMini env buf (Z.of_nat cc) (Z.of_nat rc) d <> Panicked PBuffer /\
     ParseMini env buf (Z.of_nat cc) (Z.of_nat rc) d
     = ParseMini env (firstn (cc * rc) buf) (Z.of_nat cc) (Z.of_nat rc) d) /\
  (forall env buf cc rc squares d,
     TilParse env "l1.til" = inr squares ->
     (length buf < cc * rc)%nat ->
     exists p, ParseMini env buf (Z.of_nat cc) (Z.of_nat rc) d = Panicked p) /\
  (forall env buf (colCount rowCount : Z) squares d,
     TilParse env "l1.til" = inr squares ->
     colCount <= 0 \/ rowCount <= 0 ->
     ParseMini env buf colCount rowCount d = Done d None).
Proof.
  split; [|split].
  - intros env buf cc rc squares d Ht Hl.
    rewrite !(ParseMini_flat _ _ _ _ _ _ Ht). split.
    + pose proof (miniFlat_no_buffer_panic squares buf
                    (map (fun k => (k, colMajorBlock rc k)) (seq 0 (cc * rc))) d []) as H.
      unfold bind. destruct (miniFlat _ _ _ d []); cbn [finish ret]; try discriminate.
      intros E. injection E as E. apply H; [|rewrite E; reflexivity].
      intros e He. apply in_map_iff in He as (k & <- & Hk). apply in_seq in Hk. simpl. lia.
    + unfold bind. rewrite (miniFlat_ext squares buf (firstn (cc * rc) buf)); [reflexivity|].
      intros e He. apply in_map_iff in He as (k & <- & Hk). apply in_seq in Hk. simpl.
      symmetry. apply nth_error_firstn_lt. lia.
  - intros env buf cc rc squares d Ht Hl.
    rewrite (ParseMini_flat _ _ _ _ _ _ Ht).
    destruct (miniFlat_reach squares buf (map (fun k => (k, colMajorBlock rc k)) (seq 0 (cc * rc)))
                (length buf) d []) as [p E].
    + rewrite length_map, length_seq. exact Hl.
    + intros d' s'. rewrite nth_map_seq by exact Hl. unfold miniStep.
      destruct (colMajorBlock rc (length buf)) as [c r].
      rewrite (proj2 (nth_error_None buf (length buf)) (le_n _)). eexists. reflexivity.
    + exists p. unfold bind. rewrite E. reflexivity.
  - intros env buf colCount rowCount squares d Ht Hneg.
    unfold ParseMini. rewrite Ht. unfold bind.
    destruct Hneg as [Hc|Hr].
    + rewrite (Z2Nat.nonpos colCount Hc). reflexivity.
    + rewrite (Z2Nat.nonpos rowCount Hr), miniCols_no_rows. reflexivity.
Qed.

(** C9 on a 2x2 buffer of 4 elements, a 1x1 empty buffer, and the counts
    [(3, -1)] with an empty buffer. *)
Lemma C9_witness :
  ParseMini (envFile [] 0 0 [sqA]) [Byte.x00; Byte.x01; Byte.x00; Byte.x00] 2 2 New
    <> Panicked PBuffer /\
  (exists p, ParseMini (envFile [] 0 0 [sqA]) [] 1 1 New = Panicked p) /\
  ((3 <= 0 \/ -1 <= 0) /\ ParseMini (envFile [] 0 0 [sqA]) [] 3 (-1) New = Done New None).
Proof.
  split; [|split].
  - apply (proj1 (proj1 C9_buffer_reads (envFile [] 0 0 [sqA])
                    [Byte.x00; Byte.x01; Byte.x00; Byte.x00] 2%nat 2%nat [sqA] New
                    eq_refl ltac:(simpl; lia))).
  - apply (proj1 (proj2 C9_buffer_reads) (envFile [] 0 0 [sqA]) [] 1%nat 1%nat [sqA] New eq_refl).
    simpl. lia.
  - split; [right; lia|].
    apply (proj2 (proj2 C9_buffer_reads) (envFile [] 0 0 [sqA]) [] 3 (-1) [sqA] New eq_refl).
    right. lia.
Defined.

(** C9 does not hold for negative counts: with [colCount = rowCount = -1]
    the empty buffer is shorter than [colCount*rowCount = 1], and yet
    [Parse] returns normally. *)
Lemma C9_counterexample :
  Z.of_nat (length ([] : list Byte.byte)) < (-1) * (-1) /\
  ParseMini (envFile [] 0 0 [sqA]) [] (-1) (-1) New = Done New None.
Proof. split; [simpl; lia|reflexivity]. Qed.

(** ** C6: the arch overlays *)

Lemma getArchID_overlay p :
  getArchID p = match archOverlay p with Some a => (a, true) | None => (0, false) end.
Proof.
  unfold getArchID, archOverlay, archSwIDs, archSeIDs. cbn [existsb].
  rewrite !orb_false_r, !orb_assoc.
  destruct ((p =? PillarIDFloorShadowArchSw_1) || (p =? PillarIDFloorShadowArchSw_2)
            || (p =? PillarIDFloorShadowArchSw_3) || (p =? PillarIDFloorShadowArchSw_4)
            || (p =? PillarIDFloorShadowArchSw_5) || (p =? PillarIDFloorShadowArchSw_6));
    [reflexivity|].
  destruct ((p =? PillarIDFloorShadowArchSe_1) || (p =? PillarIDFloorShadowArchSe_2)
            || (p =? PillarIDFloorShadowArchSe_3) || (p =? PillarIDFloorShadowArchSe_4)
            || (p =? PillarIDFloorShadowArchSe_5) || (p =? PillarIDFloorShadowArchSe_6));
    [reflexivity|].
  destruct (p =? PillarIDFloorShadowArchSwBroken2_1); [reflexivity|].
  destruct (p =? PillarIDFloorShadowArchSw2_1); reflexivity.
Qed.

Lemma drawCell_ok BW BH PW d pillars nArches mapWidth pillarHeight col row l :
  drawCell BW BH PW d pillars nArches mapWidth pillarHeight col row = inr l ->
  l = cellDraws BW BH PW d mapWidth pillarHeight col row.
Proof.
  unfold drawCell, cellDraws. destruct (negb (inGrid col row)); [discriminate|].
  destruct (d col row !! "pillarNum") as [pn|]; [|congruence].
  destruct (nthZ pillars pn); [|discriminate].
  rewrite getArchID_overlay. destruct (archOverlay pn) as [a|].
  - destruct ((0 <=? a) && (a <? Z.of_nat nArches)); congruence.
  - congruence.
Qed.

Lemma appendDraws_ok acc r l :
  appendDraws acc r = inr l -> exists l1 l2, acc = inr l1 /\ r = inr l2 /\ l = l1 ++ l2.
Proof.
  destruct acc as [p|l1], r as [q|l2]; cbn; try discriminate.
  intros E. injection E as <-. eauto.
Qed.

Lemma imageCols_ok BW BH PW d pillars nArches mapWidth pillarHeight n col row l :
  imageCols BW BH PW d pillars nArches mapWidth pillarHeight n col row = inr l ->
  l = flat_map (fun c => cellDraws BW BH PW d mapWidth pillarHeight c row) (zseqFrom col n).
Proof.
  revert col l. induction n as [|n IH]; intros col l E.
  - cbn in E. injection E as <-. reflexivity.
  - cbn [imageCols] in E. apply appendDraws_ok in E as (l1 & l2 & E1 & E2 & ->).
    cbn [zseqFrom flat_map]. rewrite (drawCell_ok _ _ _ _ _ _ _ _ _ _ _ E1).
    rewrite (IH _ _ E2). reflexivity.
Qed.

Lemma imageRows_ok BW BH PW d pillars nArches mapWidth pillarHeight cc n row l :
  imageRows BW BH PW d pillars nArches mapWidth pillarHeight cc n row = inr l ->
  l = flat_map (fun r => flat_map (fun c => cellDraws BW BH PW d mapWidth pillarHeight c r)
                                  (zseqFrom 0 cc))
               (zseqFrom row n).
Proof.
  revert row l. induction n as [|n IH]; intros row l E.
  - cbn in E. injection E as <-. reflexivity.
  - cbn [imageRows] in E. apply appendDraws_ok in E as (l1 & l2 & E1 & E2 & ->).
    cbn [zseqFrom flat_map]. rewrite (imageCols_ok _ _ _ _ _ _ _ _ _ _ _ _ E1).
    rewrite (IH _ _ E2). reflexivity.
Qed.

(** C6 (confirmed). When [Image] completes, its draw calls are, row by row
    and column by column, those of [cellDraws]: for each cell with a
    pillarNum, the base pillar raster, then, if the pillar id is one of the
    arch ids (southwest, southeast, broken or alternate southwest), the
    matching arch overlay raster into the same rectangle, both with
    [draw.Over]; a pillar id outside the arch set gets only its base raster. *)
Theorem C6_arch_overlay :
  forall BW BH PW d arches decodeArches colCount rowCount pillars bounds draws nArches p0,
    Image BW BH PW d arches decodeArches colCount rowCount pillars = ImgDone bounds draws nArches ->
    nthZ pillars 0 = Some p0 ->
    let maxCount := if rowCount >? colCount then rowCount else colCount in
    draws = imageDraws BW BH PW d (maxCount * BW + maxCount * BW) (Height p0)
                       (Z.to_nat colCount) (Z.to_nat rowCount).
Proof.
  intros BW BH PW d arches decodeArches colCount rowCount pillars bounds draws nArches p0 E Hp0.
  unfold Image in E. rewrite Hp0 in E.
  destruct (match arches with Some n => inr n | None => decodeArches end) as [err|n];
    [discriminate|].
  match type of E with
  | match ?t with _ => _ end = _ => destruct t as [p|l] eqn:Ei; [discriminate|]
  end.
  injection E as _ <- _. exact (imageRows_ok _ _ _ _ _ _ _ _ _ _ _ _ Ei).
Qed.

(** C6 on a 1x1 grid whose only cell holds pillar 10, a southeast arch id:
    the draws are its base raster and then the southeast arch overlay. *)
Lemma C6_witness :
  exists bounds draws nArches,
    Image 32 32 64 (setAttr New 0 0 "pillarNum" 10) (Some 8%nat) (inr 8%nat) 1 1
          (repeat {| Height := 100 |} 11%nat) = ImgDone bounds draws nArches /\
    draws = imageDraws 32 32 64 (setAttr New 0 0 "pillarNum" 10) (1 * 32 + 1 * 32) 100 1%nat 1%nat.
Proof.
  do 3 eexists. split; [reflexivity|].
  eapply (C6_arch_overlay 32 32 64 (setAttr New 0 0 "pillarNum" 10) (Some 8%nat) (inr 8%nat) 1 1
           (repeat {| Height := 100 |} 11%nat) _ _ _ {| Height := 100 |}); reflexivity.
Defined.

(** The draws of that grid, computed. *)
Lemma C6_witness_draws :
  imageDraws 32 32 64 (setAttr New 0 0 "pillarNum" 10) (1 * 32 + 1 * 32) 100 1%nat 1%nat
  = [{| dstRect := Rect 0 0 64 100; src := PillarImage 10; op := Over |};
     {| dstRect := Rect 0 0 64 100; src := ArchImage ArchSe; op := Over |}].
Proof. vm_compute. reflexivity. Qed.

(** ** Further properties: decoding the whole square plane *)

Lemma bind_ROk {A B} (m : M A) (f : A -> M B) d s b d' s' :
  bind m f d s = ROk b d' s' ->
  exists a d1 s1, m d s = ROk a d1 s1 /\ f a d1 s1 = ROk b d' s'.
Proof.
  unfold bind. destruct (m d s) as [a d1 s1|e d1|p]; try discriminate. eauto.
Qed.

Lemma placeSquare_ROk squares col row x d s u d1 s1 :
  placeSquare squares col row x d s = ROk u d1 s1 ->
  s1 = s /\
  ((x = 0 /\ d1 = d) \/
   (x <> 0 /\ exists square, nthZ squares (x - 1) = Some square /\ d1 = placed d col row square)).
Proof.
  unfold placeSquare. destruct (Z.eqb_spec x 0) as [->|Hx].
  { intros E. injection E as _ <- <-. auto. }
  destruct (nthZ squares (x - 1)) as [square|] eqn:Hn; [|discriminate].
  unfold bind, write.
  repeat match goal with |- context [if inGrid ?a ?b then _ else _] =>
    destruct (inGrid a b); [|discriminate] end.
  intros E. injection E as _ <- <-. split; [reflexivity|]. right. eauto.
Qed.

Lemma keeps_squaresFlat squares bs :
  keeps (fun x y k => k = "pillarNum" /\ exists b, In b bs /\ blockCells b x y)
        (squaresFlat squares bs).
Proof.
  induction bs as [|[c r] bs IH]; [apply keeps_ret|].
  cbn [squaresFlat]. apply keeps_bind; [apply keeps_read|]. intros [e|x].
  - apply keeps_retErr.
  - apply keeps_bind.
    + eapply keeps_weaken; [|apply keeps_placeSquare]. cbv beta.
      intros ? ? ? (-> & ? & ?). split; [reflexivity|]. exists (c, r). split; [left; reflexivity|].
      unfold blockCells. simpl. lia.
    + intros _. eapply keeps_weaken; [|apply IH]. cbv beta.
      intros ? ? ? (-> & b & Hb & Hc). split; [reflexivity|]. exists b. split; [right|]; assumption.
Qed.

Lemma far_not_cells b c r dx dy :
  farBlocks b (c, r) -> 0 <= dx <= 1 -> 0 <= dy <= 1 -> ~ blockCells b (c + dx) (r + dy).
Proof. unfold farBlocks, blockCells. simpl. lia. Qed.

Lemma placed_lookup_far d c r square x y :
  ~ blockCells (c, r) x y -> placed d c r square x y !! "pillarNum" = d x y !! "pillarNum".
Proof.
  intros Hn. rewrite placed_lookup. unfold quadrantPillar, blockCells in *. simpl in Hn.
  destruct (Z.eqb_spec x c), (Z.eqb_spec x (c + 1)), (Z.eqb_spec y r), (Z.eqb_spec y (r + 1));
    cbn; try reflexivity; lia.
Qed.

(** After a completed square loop, each block holds what its own square id
    says: nothing new for an id of 0, the four pillars of its square
    otherwise (the other blocks do not overlap it). *)
Lemma squaresFlat_lookup squares bs k d s d' s' :
  squaresFlat squares bs d s = ROk tt d' s' ->
  (k < length bs)%nat ->
  (forall j, (j < length bs)%nat -> j <> k -> farBlocks (nth j bs (0, 0)) (nth k bs (0, 0))) ->
  forall dx dy, 0 <= dx <= 1 -> 0 <= dy <= 1 ->
  let c := fst (nth k bs (0, 0)) in let r := snd (nth k bs (0, 0)) in
  (u16At s k = 0 -> d' (c + dx) (r + dy) !! "pillarNum" = d (c + dx) (r + dy) !! "pillarNum") /\
  (u16At s k <> 0 -> exists square, nthZ squares (u16At s k - 1) = Some square /\
     d' (c + dx) (r + dy) !! "pillarNum" = quadrantPillar c r square (c + dx) (r + dy)).
Proof.
  revert k d s. induction bs as [|[c0 r0] bs IH]; intros k d s E Hk Hfar dx dy Hdx Hdy; cbv zeta;
    [simpl in Hk; lia|].
  cbn [squaresFlat] in E. apply bind_ROk in E as (rd & d1 & s1 & Er & E).
  unfold read in Er.
  destruct s as [|b0 [|b1 s]]; cbn [readU16] in Er; injection Er as <- <- <-;
    [unfold retErr in E; discriminate|unfold retErr in E; discriminate|].
  apply bind_ROk in E as (u & d2 & s2 & Ep & E).
  apply placeSquare_ROk in Ep as (-> & Hp).
  pose proof (keeps_squaresFlat squares bs d2 s) as K. rewrite E in K.
  destruct k as [|k].
  - cbn [nth fst snd] in *.
    assert (Hout : forall x y, blockCells (c0, r0) x y ->
              d' x y !! "pillarNum" = d2 x y !! "pillarNum").
    { intros x y Hc. apply K. intros (_ & b & Hb & Hcb).
      destruct (In_nth bs b (0, 0) Hb) as (j & Hj & <-).
      pose proof (Hfar (S j) ltac:(simpl; lia) ltac:(lia)) as Hf. cbn [nth] in Hf.
      unfold farBlocks, blockCells in *. simpl in *. lia. }
    rewrite Hout by (unfold blockCells; simpl; lia).
    change (u16At (b0 :: b1 :: s) 0) with (byteZ b0 + 256 * byteZ b1).
    destruct Hp as [(Hx & ->)|(Hx & square & Hn & ->)].
    + split; [reflexivity|]. intros Hx'. contradiction.
    + split; [intros Hx'; contradiction|]. intros _. exists square. split; [exact Hn|].
      rewrite placed_lookup. destruct (quadrantPillar c0 r0 square (c0 + dx) (r0 + dy)) eqn:Q;
        [reflexivity|].
      unfold quadrantPillar in Q.
      destruct (Z.eqb_spec (c0 + dx) c0), (Z.eqb_spec (c0 + dx) (c0 + 1)),
               (Z.eqb_spec (r0 + dy) r0), (Z.eqb_spec (r0 + dy) (r0 + 1));
        cbn in Q; try discriminate; lia.
  - rewrite u16At_cons2. cbn [nth].
    assert (Hfar' : forall j, (j < length bs)%nat -> j <> k ->
              farBlocks (nth j bs (0, 0)) (nth k bs (0, 0))).
    { intros j Hj Hjk. apply (Hfar (S j)); simpl; lia. }
    destruct (IH k d2 s E ltac:(simpl in Hk; lia) Hfar' dx dy Hdx Hdy) as [H0 H1].
    pose proof (Hfar 0%nat ltac:(simpl; lia) ltac:(lia)) as Hf. cbn [nth] in Hf.
    revert H0 H1 Hf. destruct (nth k bs (0, 0)) as [ck rk]. cbn [fst snd]. intros H0 H1 Hf.
    assert (Hd2 : d2 (ck + dx) (rk + dy) !! "pillarNum" = d (ck + dx) (rk + dy) !! "pillarNum").
    { destruct Hp as [(_ & ->)|(_ & square & _ & ->)]; [reflexivity|].
      apply placed_lookup_far. apply far_not_cells; assumption. }
    split.
    + intros Hz. rewrite (H0 Hz). exact Hd2.
    + exact H1.
Qed.

Lemma squaresFlat_RRet squares bs d s e d' :
  squaresFlat squares bs d s = RRet e d' -> e <> None.
Proof.
  revert d s. induction bs as [|[c r] bs IH]; intros d s E; [discriminate|].
  cbn [squaresFlat] in E. unfold bind at 1, read in E.
  destruct (readU16 s) as [err|[x s1]].
  - unfold retErr in E. injection E as <- _. discriminate.
  - unfold bind in E. destruct (placeSquare squares c r x d s1) as [u d1 s2|e' d1|p] eqn:Ep.
    + exact (IH _ _ E).
    + unfold placeSquare in Ep.
      destruct (x =? 0); [discriminate|]. destruct (nthZ squares (x - 1)); [|discriminate].
      unfold bind, write in Ep.
      repeat match type of Ep with context [if inGrid ?a ?b then _ else _] =>
        destruct (inGrid a b) end; discriminate.
    + discriminate.
Qed.

Lemma rowMajor_far w colStart rowStart h j k :
  (j < w * h)%nat -> (k < w * h)%nat -> j <> k ->
  farBlocks (rowMajorBlock w colStart rowStart j) (rowMajorBlock w colStart rowStart k).
Proof.
  intros Hj Hk Hjk. unfold farBlocks, rowMajorBlock. cbn [fst snd].
  destruct (Nat.eq_dec (j mod w)%nat (k mod w)%nat) as [Hm|Hm];
    [destruct (Nat.eq_dec (j / w)%nat (k / w)%nat) as [Hq|Hq]|].
  - exfalso. apply Hjk. rewrite (Nat.div_mod_eq j w), (Nat.div_mod_eq k w), Hm, Hq. reflexivity.
  - right. lia.
  - left. lia.
Qed.

(** Full-stream [Parse]: after a successful parse, every 2x2 block [k] of
    the square plane holds what its own square id says: a value of 0 leaves
    its four cells' pillarNum as they were; a non-zero value [S] names an
    existing square [S-1] whose top, right, left and bottom pillars are in
    the four cells. *)
Theorem Parse_squares_decode :
  forall env dunName w h colStart rowStart squares rest d0 d k dx dy,
    envParse env dunName w h colStart rowStart squares rest ->
    Parse env dunName d0 = Done d None ->
    (k < w * h)%nat -> 0 <= dx <= 1 -> 0 <= dy <= 1 ->
    let c := fst (rowMajorBlock w colStart rowStart k) in
    let r := snd (rowMajorBlock w colStart rowStart k) in
    (u16At rest k = 0 -> d (c + dx) (r + dy) !! "pillarNum" = d0 (c + dx) (r + dy) !! "pillarNum") /\
    (u16At rest k <> 0 -> exists square, nthZ squares (u16At rest k - 1) = Some square /\
       d (c + dx) (r + dy) !! "pillarNum" = quadrantPillar c r square (c + dx) (r + dy)).
Proof.
  intros env dunName w h colStart rowStart squares rest d0 d k dx dy Henv Hres Hk Hdx Hdy. cbv zeta.
  rewrite (Parse_body _ _ _ _ _ _ _ _ Henv) in Hres.
  rewrite (parseBody_squares squares w h colStart rowStart d0 rest) in Hres.
  unfold bind at 1 in Hres.
  destruct (squaresFlat squares (map (rowMajorBlock w colStart rowStart) (seq 0 (w * h))) d0 rest)
    as [[] d1 s1|e d1|p] eqn:Esq.
  - pose proof (finish_planes_pillarNum _ _ _ _ _ _ _ _ Hres) as Hp.
    pose proof (squaresFlat_lookup squares _ k _ _ _ _ Esq) as L.
    rewrite length_map, length_seq, nth_map_seq in L by exact Hk.
    destruct (L Hk) with (dx := dx) (dy := dy) as [L0 L1]; [|exact Hdx|exact Hdy|].
    + intros j Hj Hjk.
      rewrite !nth_map_seq by assumption. apply (rowMajor_far w colStart rowStart h); assumption.
    + cbv zeta in L0, L1. rewrite !Hp. split; assumption.
  - cbn [finish] in Hres. injection Hres as _ ->. exfalso. exact (squaresFlat_RRet _ _ _ _ _ _ Esq eq_refl).
  - discriminate.
Qed.

(** Parse_squares_decode on the 1x1 file holding square 1 of [[sqA]]. *)
Lemma Parse_squares_decode_witness :
  exists square, nthZ [sqA] (u16At [Byte.x01; Byte.x00] 0 - 1) = Some square /\
    placed New 0 0 sqA (0 + 1) (0 + 0) !! "pillarNum" = quadrantPillar 0 0 square (0 + 1) (0 + 0).
Proof.
  refine (proj2 (Parse_squares_decode
           (envFile [Byte.x01; Byte.x00; Byte.x01; Byte.x00; Byte.x01; Byte.x00] 0 0 [sqA])
           "levels/l1data/a.dun" 1%nat 1%nat 0 0 [sqA] [Byte.x01; Byte.x00] New
           (placed New 0 0 sqA) 0%nat 1 0 _ _ _ _ _) _).
  - exists "levels/l1data/a.dun", [Byte.x01; Byte.x00; Byte.x01; Byte.x00; Byte.x01; Byte.x00], "l1".
    repeat split; reflexivity.
  - reflexivity.
  - lia.
  - lia.
  - lia.
  - vm_compute. discriminate.
Defined.

Lemma keeps_miniFlat squares buf l :
  keeps (fun x y k => k = "pillarNum" /\ exists e, In e l /\ blockCells (snd e) x y)
        (miniFlat squares buf l).
Proof.
  induction l as [|[i [c r]] l IH]; [apply keeps_ret|].
  cbn [miniFlat]. apply keeps_bind.
  - unfold miniStep. destruct (nth_error buf i); [|apply keeps_panic].
    eapply keeps_weaken; [|apply keeps_placeSquare]. cbv beta.
    intros ? ? ? (-> & ? & ?). split; [reflexivity|]. exists (i, (c, r)).
    split; [left; reflexivity|]. unfold blockCells. simpl. lia.
  - intros _. eapply keeps_weaken; [|apply IH]. cbv beta.
    intros ? ? ? (-> & e & He & Hc). split; [reflexivity|]. exists e. split; [right|]; assumption.
Qed.

Lemma miniStep_ROk squares buf i c r d s u d1 s1 :
  miniStep squares buf (i, (c, r)) d s = ROk u d1 s1 ->
  exists b, nth_error buf i = Some b /\ placeSquare squares c r (byteZ b) d s = ROk u d1 s1.
Proof.
  unfold miniStep. destruct (nth_error buf i) as [b|]; [eauto|discriminate].
Qed.

Lemma miniFlat_lookup squares buf l k d s d' s' :
  miniFlat squares buf l d s = ROk tt d' s' ->
  (k < length l)%nat ->
  (forall j, (j < length l)%nat -> j <> k ->
     farBlocks (snd (nth j l (0%nat, (0, 0)))) (snd (nth k l (0%nat, (0, 0))))) ->
  forall dx dy, 0 <= dx <= 1 -> 0 <= dy <= 1 ->
  let c := fst (snd (nth k l (0%nat, (0, 0)))) in let r := snd (snd (nth k l (0%nat, (0, 0)))) in
  exists b, nth_error buf (fst (nth k l (0%nat, (0, 0)))) = Some b /\
  (byteZ b = 0 -> d' (c + dx) (r + dy) !! "pillarNum" = d (c + dx) (r + dy) !! "pillarNum") /\
  (byteZ b <> 0 -> exists square, nthZ squares (byteZ b - 1) = Some square /\
     d' (c + dx) (r + dy) !! "pillarNum" = quadrantPillar c r square (c + dx) (r + dy)).
Proof.
  revert k d. induction l as [|[i [c0 r0]] l IH]; intros k d E Hk Hfar dx dy Hdx Hdy; cbv zeta;
    [simpl in Hk; lia|].
  cbn [miniFlat] in E. apply bind_ROk in E as (u & d2 & s2 & Ep & E).
  apply miniStep_ROk in Ep as (b & Hb & Ep).
  apply placeSquare_ROk in Ep as (-> & Hp).
  pose proof (keeps_miniFlat squares buf l d2 s) as K. rewrite E in K.
  destruct k as [|k].
  - cbn [nth fst snd] in *. exists b. split; [exact Hb|].
    assert (Hout : forall x y, blockCells (c0, r0) x y ->
              d' x y !! "pillarNum" = d2 x y !! "pillarNum").
    { intros x y Hc. apply K. intros (_ & e & He & Hce).
      destruct (In_nth l e (0%nat, (0, 0)) He) as (j & Hj & <-).
      pose proof (Hfar (S j) ltac:(simpl; lia) ltac:(lia)) as Hf. cbn [nth] in Hf.
      unfold farBlocks, blockCells in *. simpl in *. lia. }
    rewrite Hout by (unfold blockCells; simpl; lia).
    destruct Hp as [(Hx & ->)|(Hx & square & Hn & ->)].
    + split; [reflexivity|]. intros Hx'. contradiction.
    + split; [intros Hx'; contradiction|]. intros _. exists square. split; [exact Hn|].
      rewrite placed_lookup. destruct (quadrantPillar c0 r0 square (c0 + dx) (r0 + dy)) eqn:Q;
        [reflexivity|].
      unfold quadrantPillar in Q.
      destruct (Z.eqb_spec (c0 + dx) c0), (Z.eqb_spec (c0 + dx) (c0 + 1)),
               (Z.eqb_spec (r0 + dy) r0), (Z.eqb_spec (r0 + dy) (r0 + 1));
        cbn in Q; try discriminate; lia.
  - cbn [nth].
    assert (Hfar' : forall j, (j < length l)%nat -> j <> k ->
              farBlocks (snd (nth j l (0%nat, (0, 0)))) (snd (nth k l (0%nat, (0, 0))))).
    { intros j Hj Hjk. apply (Hfar (S j)); simpl; lia. }
    destruct (IH k d2 E ltac:(simpl in Hk; lia) Hfar' dx dy Hdx Hdy) as (b' & Hb' & H0 & H1).
    pose proof (Hfar 0%nat ltac:(simpl; lia) ltac:(lia)) as Hf. cbn [nth snd] in Hf.
    exists b'. split; [exact Hb'|].
    revert H0 H1 Hf. destruct (nth k l (0%nat, (0, 0))) as [ik [ck rk]]. cbn [fst snd].
    intros H0 H1 Hf.
    assert (Hd2 : d2 (ck + dx) (rk + dy) !! "pillarNum" = d (ck + dx) (rk + dy) !! "pillarNum").
    { destruct Hp as [(_ & ->)|(_ & square & _ & ->)]; [reflexivity|].
      apply placed_lookup_far. apply far_not_cells; assumption. }
    split.
    + intros Hz. rewrite (H0 Hz). exact Hd2.
    + exact H1.
Qed.

Lemma miniFlat_not_RRet squares buf l d s e d' :
  miniFlat squares buf l d s <> RRet e d'.
Proof.
  revert d s. induction l as [|[i [c r]] l IH]; intros d s; [discriminate|].
  cbn [miniFlat]. unfold bind at 1.
  destruct (miniStep squares buf (i, (c, r)) d s) as [u d1 s1|e' d1|p] eqn:E.
  - apply IH.
  - unfold miniStep, placeSquare in E. destruct (nth_error buf i); [|discriminate].
    destruct (byteZ b =? 0); [discriminate|]. destruct (nthZ squares (byteZ b - 1)); [|discriminate].
    unfold bind, write in E.
    repeat match type of E with context [if inGrid ?a ?b then _ else _] =>
      destruct (inGrid a b) end; discriminate.
  - discriminate.
Qed.

Lemma colMajor_far rc cc j k :
  (j < cc * rc)%nat -> (k < cc * rc)%nat -> j <> k ->
  farBlocks (colMajorBlock rc j) (colMajorBlock rc k).
Proof.
  intros Hj Hk Hjk. unfold farBlocks, colMajorBlock. cbn [fst snd].
  destruct (Nat.eq_dec (j mod rc)%nat (k mod rc)%nat) as [Hm|Hm];
    [destruct (Nat.eq_dec (j / rc)%nat (k / rc)%nat) as [Hq|Hq]|].
  - exfalso. apply Hjk. rewrite (Nat.div_mod_eq j rc), (Nat.div_mod_eq k rc), Hm, Hq. reflexivity.
  - left. lia.
  - right. lia.
Qed.

(** Fixed-size [Parse]: after a successful parse, every block [k] (column-major)
    holds what buffer element [k] says: 0 leaves its four cells' pillarNum as
    they were; a non-zero value [S] names an existing square [S-1] whose top,
    right, left and bottom pillars are in the four cells. *)
Theorem ParseMini_squares_decode :
  forall env buf cc rc squares d0 d k dx dy,
    TilParse env "l1.til" = inr squares ->
    ParseMini env buf (Z.of_nat cc) (Z.of_nat rc) d0 = Done d None ->
    (k < cc * rc)%nat -> 0 <= dx <= 1 -> 0 <= dy <= 1 ->
    let c := fst (colMajorBlock rc k) in
    let r := snd (colMajorBlock rc k) in
    exists b, nth_error buf k = Some b /\
    (byteZ b = 0 -> d (c + dx) (r + dy) !! "pillarNum" = d0 (c + dx) (r + dy) !! "pillarNum") /\
    (byteZ b <> 0 -> exists square, nthZ squares (byteZ b - 1) = Some square /\
       d (c + dx) (r + dy) !! "pillarNum" = quadrantPillar c r square (c + dx) (r + dy)).
Proof.
  intros env buf cc rc squares d0 d k dx dy Ht Hres Hk Hdx Hdy. cbv zeta.
  rewrite (ParseMini_flat _ _ _ _ _ _ Ht) in Hres. unfold bind in Hres.
  destruct (miniFlat squares buf (map (fun k => (k, colMajorBlock rc k)) (seq 0 (cc * rc))) d0 [])
    as [[] d1 s1|e d1|p] eqn:Esq.
  - cbn [finish ret] in Hres. injection Hres as ->.
    pose proof (miniFlat_lookup squares buf _ k _ _ _ _ Esq) as L.
    rewrite length_map, length_seq, nth_map_seq in L by exact Hk.
    apply L; [exact Hk| |exact Hdx|exact Hdy].
    intros j Hj Hjk. rewrite nth_map_seq by assumption. apply (colMajor_far rc cc); assumption.
  - exfalso. exact (miniFlat_not_RRet _ _ _ _ _ _ _ Esq).
  - discriminate.
Qed.

(** ParseMini_squares_decode on a 2x2 buffer holding square 1 at index 1. *)
Lemma ParseMini_squares_decode_witness :
  exists b, nth_error [Byte.x00; Byte.x01; Byte.x00; Byte.x00] 1 = Some b /\
    (byteZ b = 0 -> placed New 0 2 sqA (0 + 1) (2 + 1) !! "pillarNum"
                    = New (0 + 1) (2 + 1) !! "pillarNum") /\
    (byteZ b <> 0 -> exists square, nthZ [sqA] (byteZ b - 1) = Some square /\
       placed New 0 2 sqA (0 + 1) (2 + 1) !! "pillarNum" = quadrantPillar 0 2 square (0 + 1) (2 + 1)).
Proof.
  apply (ParseMini_squares_decode (envFile [] 0 0 [sqA]) [Byte.x00; Byte.x01; Byte.x00; Byte.x00]
           2%nat 2%nat [sqA] New (placed New 0 2 sqA) 1%nat 1 1).
  - reflexivity.
  - reflexivity.
  - lia.
  - lia.
  - lia.
Defined.

(** ** The trailing planes: values read and where they land *)

Lemma squaresFlat_stream squares bs d s u d' s' :
  squaresFlat squares bs d s = ROk u d' s' -> s' = drop (2 * length bs) s.
Proof.
  revert d s. induction bs as [|[c r] bs IH]; intros d s E.
  - injection E as _ _ <-. reflexivity.
  - cbn [squaresFlat] in E. apply bind_ROk in E as (x & d1 & s1 & Er & E).
    unfold read in Er. destruct s as [|b0 [|b1 s]]; cbn in Er; injection Er as <- <- <-;
      [discriminate|discriminate|].
    apply bind_ROk in E as (v & d2 & s2 & Ep & E).
    apply placeSquare_ROk in Ep as [-> _].
    rewrite (IH _ _ E). replace (2 * length ((c, r) :: bs))%nat with (S (S (2 * length bs)))
      by (simpl; lia). reflexivity.
Qed.

Lemma planeRow_ROk key i j n col row d s d' s' :
  planeRow key i j n col row d s = ROk tt d' s' ->
  s' = drop (2 * n) s /\ (2 * n <= length s)%nat /\
  forall m, (m < n)%nat -> d' (col + Z.of_nat m) row !! key = Some (u16At s m).
Proof.
  revert j col d s. induction n as [|n IH]; intros j col d s E.
  - injection E as <- <-. split; [reflexivity|]. split; [lia|]. intros m Hm. lia.
  - cbn [planeRow] in E. apply bind_ROk in E as (x & d1 & s1 & Er & E).
    unfold read in Er. destruct s as [|b0 [|b1 s]]; cbn in Er; injection Er as <- <- <-.
    1, 2: destruct (_ && _ && _); discriminate.
    apply bind_ROk in E as (v & d2 & s2 & Ew & E).
    unfold write in Ew. destruct (inGrid col row) eqn:G; [|discriminate].
    injection Ew as <- <- <-.
    pose proof (keeps_planeRow key i (S j) n (col + 1) row
                  (setAttr d col row key (byteZ b0 + 256 * byteZ b1)) s) as K.
    rewrite E in K.
    destruct (IH _ _ _ _ E) as (-> & Hl & Hv). split; [|split].
    + replace (2 * S n)%nat with (S (S (2 * n))) by lia. reflexivity.
    + simpl. lia.
    + intros [|m] Hm.
      * cbn [Z.of_nat]. rewrite Z.add_0_r, K by lia.
        unfold setAttr. rewrite !Z.eqb_refl. cbn [andb]. rewrite lookup_insert_eq. reflexivity.
      * replace (col + Z.of_nat (S m)) with (col + 1 + Z.of_nat m) by lia.
        rewrite Hv by lia. rewrite u16At_cons2. reflexivity.
Qed.

Lemma planeRows_ROk key i n w colStart row d s d' s' :
  planeRows key i n w colStart row d s = ROk tt d' s' ->
  s' = drop (2 * (n * w)) s /\
  forall a m, (a < n)%nat -> (m < w)%nat ->
    d' (colStart + Z.of_nat m) (row + Z.of_nat a) !! key = Some (u16At s (a * w + m)).
Proof.
  revert i row d s. induction n as [|n IH]; intros i row d s E.
  - injection E as <- <-. split; [reflexivity|]. intros a m Ha. lia.
  - cbn [planeRows] in E. apply bind_ROk in E as ([] & d1 & s1 & E1 & E).
    destruct (planeRow_ROk _ _ _ _ _ _ _ _ _ _ E1) as (-> & Hl & Hv1).
    pose proof (keeps_planeRows key (S i) n w colStart (row + 1) d1 (drop (2 * w) s)) as K.
    rewrite E in K.
    destruct (IH _ _ _ _ E) as (-> & Hv). split.
    + rewrite skipn_skipn. f_equal. lia.
    + intros [|a] m Ha Hm.
      * cbn [Z.of_nat]. rewrite Z.add_0_r, K by lia. rewrite Hv1 by exact Hm. reflexivity.
      * replace (row + Z.of_nat (S a)) with (row + 1 + Z.of_nat a) by lia.
        rewrite Hv by lia. rewrite u16At_drop. f_equal. f_equal. lia.
Qed.

Lemma planeRow_not_RRet key i j n col row d s e d' :
  (2 * n <= length s)%nat -> planeRow key i j n col row d s <> RRet e d'.
Proof.
  revert j col d s. induction n as [|n IH]; intros j col d s Hs; [discriminate|].
  destruct s as [|b0 [|b1 s]]; [simpl in Hs; lia|simpl in Hs; lia|].
  cbn [planeRow]. unfold bind at 1, read. cbn [readU16]. unfold bind, write.
  destruct (inGrid col row); [apply IH; simpl in Hs; lia|discriminate].
Qed.

Lemma planeRows_not_RRet key i n w colStart row d s e d' :
  (2 * (n * w) <= length s)%nat -> planeRows key i n w colStart row d s <> RRet e d'.
Proof.
  revert i row d s. induction n as [|n IH]; intros i row d s Hs; [discriminate|].
  cbn [planeRows]. unfold bind at 1.
  destruct (planeRow key i 0 w colStart row d s) as [[] d1 s1|e1 d1|p] eqn:E1.
  - destruct (planeRow_ROk _ _ _ _ _ _ _ _ _ _ E1) as (-> & _ & _).
    apply IH. rewrite length_skipn. lia.
  - exfalso. apply (planeRow_not_RRet key i 0 w colStart row d s e1 d1); [lia|exact E1].
  - discriminate.
Qed.

Lemma keeps_planesFrom keys H W colStart rowStart :
  keeps (fun _ _ k => In k keys) (planesFrom keys H W colStart rowStart).
Proof.
  induction keys as [|key keys IH]; [apply keeps_ret|].
  cbn [planesFrom]. apply keeps_bind.
  - eapply keeps_weaken; [|apply keeps_planeRows]. cbv beta. intros ? ? ? [-> _]. left. reflexivity.
  - intros _. eapply keeps_weaken; [|apply IH]. cbv beta. intros ? ? ? Hk. right. exact Hk.
Qed.

Lemma planesFrom_ROk keys H W colStart rowStart d s d' s' :
  List.NoDup keys ->
  planesFrom keys H W colStart rowStart d s = ROk tt d' s' ->
  forall p key, nth_error keys p = Some key ->
  forall a m, (a < H)%nat -> (m < W)%nat ->
    d' (colStart + Z.of_nat m) (rowStart + Z.of_nat a) !! key
    = Some (u16At s (p * (H * W) + (a * W + m))).
Proof.
  revert d s. induction keys as [|k0 keys IH]; intros d s Hnd E p key Hp a m Ha Hm;
    [destruct p; discriminate|].
  cbn [planesFrom] in E. apply bind_ROk in E as (u & d1 & s1 & E1 & E).
  destruct u. destruct (planeRows_ROk _ _ _ _ _ _ _ _ _ _ E1) as (-> & Hv).
  apply NoDup_cons_iff in Hnd as [Hnin Hnd].
  destruct p as [|p].
  - injection Hp as <-.
    pose proof (keeps_planesFrom keys H W colStart rowStart d1 (drop (2 * (H * W)) s)) as K.
    rewrite E in K. rewrite K by exact Hnin. rewrite Hv by assumption. reflexivity.
  - rewrite (IH _ _ Hnd E p key Hp a m Ha Hm), u16At_drop. f_equal. f_equal. lia.
Qed.

Lemma planesFrom_not_RRet keys H W colStart rowStart d s e d' :
  (length keys * (2 * (H * W)) <= length s)%nat ->
  planesFrom keys H W colStart rowStart d s <> RRet e d'.
Proof.
  revert d s. induction keys as [|key keys IH]; intros d s Hs; [discriminate|].
  cbn [planesFrom]. unfold bind at 1.
  destruct (planeRows key 0 H W colStart rowStart d s) as [[] d1 s1|e1 d1|p] eqn:E1.
  - destruct (planeRows_ROk _ _ _ _ _ _ _ _ _ _ E1) as (-> & _).
    apply IH. rewrite length_skipn. simpl in Hs. lia.
  - exfalso. apply (planeRows_not_RRet key 0 H W colStart rowStart d s e1 d1);
      [simpl in Hs; lia|exact E1].
  - discriminate.
Qed.

(** Full-stream [Parse], trailing planes: when the file holds all four
    trailing planes and [Parse] returns no error, the attribute [key] (the
    [p]-th of unknown, dunMonsterID, dunObjectID, transparency) of cell
    [(colStart + j, rowStart + i)] is the [uint16] at index
    [i * 2*quadWidth + j] of plane [p], the planes following the
    [quadWidth * quadHeight] square ids. *)
Theorem Parse_planes_decode :
  forall env dunName w h colStart rowStart squares rest d0 d p key i j,
    envParse env dunName w h colStart rowStart squares rest ->
    Parse env dunName d0 = Done d None ->
    (2 * (w * h) + 4 * (2 * ((2 * h) * (2 * w))) <= length rest)%nat ->
    nth_error ["unknown"; "dunMonsterID"; "dunObjectID"; "transparency"] p = Some key ->
    (i < 2 * h)%nat -> (j < 2 * w)%nat ->
    d (colStart + Z.of_nat j) (rowStart + Z.of_nat i) !! key
    = Some (u16At rest (w * h + p * ((2 * h) * (2 * w)) + i * (2 * w) + j)).
Proof.
  intros env dunName w h colStart rowStart squares rest d0 d p key i j Henv Hres Hlen Hp Hi Hj.
  rewrite (Parse_body _ _ _ _ _ _ _ _ Henv), (parseBody_planes _ _ _ _ _ d0 rest) in Hres.
  unfold bind at 1 in Hres.
  destruct (squaresRows squares w h colStart rowStart d0 rest) as [u d1 s1|e d1|q] eqn:Esq.
  - rewrite (squaresRows_flat squares w h colStart rowStart d0 rest), gridBlocks_rowMajor in Esq.
    apply squaresFlat_stream in Esq. rewrite length_map, length_seq in Esq. subst s1.
    destruct (planesFrom ["unknown"; "dunMonsterID"; "dunObjectID"; "transparency"]
                (2 * h) (2 * w) colStart rowStart d1 (drop (2 * (w * h)) rest))
      as [[] d2 s2|e d2|q] eqn:Ep; cbn [finish] in Hres.
    + injection Hres as <-.
      assert (Hnd : List.NoDup ["unknown"; "dunMonsterID"; "dunObjectID"; "transparency"])
        by (repeat constructor; cbn; intuition discriminate).
      rewrite (planesFrom_ROk _ _ _ _ _ _ _ _ _ Hnd Ep p key Hp i j Hi Hj), u16At_drop.
      f_equal. f_equal. lia.
    + exfalso. eapply planesFrom_not_RRet; [|exact Ep]. rewrite length_skipn. simpl. lia.
    + discriminate.
  - cbn [finish] in Hres. injection Hres as -> ->.
    rewrite (squaresRows_flat squares w h colStart rowStart d0 rest), gridBlocks_rowMajor in Esq.
    exfalso. exact (squaresFlat_RRet _ _ _ _ _ _ Esq eq_refl).
  - discriminate.
Qed.

(** Parse_planes_decode on a complete 1x1 file: the dunObjectID of cell
    (0, 1) is the third value of its plane, 35. *)
Lemma Parse_planes_decode_witness :
  let d := match Parse planesEnv "levels/l1data/a.dun" New with Done d _ => d | _ => New end in
  d (0 + Z.of_nat 0) (0 + Z.of_nat 1) !! "dunObjectID"
  = Some (u16At planesRest (1 * 1 + 2 * ((2 * 1) * (2 * 1)) + 1 * (2 * 1) + 0)) /\
  u16At planesRest (1 * 1 + 2 * ((2 * 1) * (2 * 1)) + 1 * (2 * 1) + 0) = 35.
Proof.
  intros d. split; [|reflexivity].
  apply (Parse_planes_decode planesEnv "levels/l1data/a.dun" 1%nat 1%nat 0 0 [sqA] planesRest
           New d 2%nat "dunObjectID" 1%nat 0%nat).
  - exists "levels/l1data/a.dun", ([Byte.x01; Byte.x00; Byte.x01; Byte.x00] ++ planesRest), "l1".
    repeat split; reflexivity.
  - reflexivity.
  - simpl. lia.
  - reflexivity.
  - lia.
  - lia.
Defined.

(** ** A complete square plane *)

Lemma squaresFlat_length squares bs d s u d' s' :
  squaresFlat squares bs d s = ROk u d' s' -> (2 * length bs <= length s)%nat.
Proof.
  revert d s. induction bs as [|[c r] bs IH]; intros d s E; [simpl; lia|].
  cbn [squaresFlat] in E. apply bind_ROk in E as (x & d1 & s1 & Er & E).
  unfold read in Er. destruct s as [|b0 [|b1 s]]; cbn in Er; injection Er as <- <- <-;
    [discriminate|discriminate|].
  apply bind_ROk in E as (v & d2 & s2 & Ep & E).
  apply placeSquare_ROk in Ep as [-> _].
  apply IH in E. simpl. lia.
Qed.

(** Full-stream [Parse]: a parse that returns no error has read the whole
    square plane, [quadWidth * quadHeight] values of two bytes. Unlike a
    trailing plane, a square plane cut short, even empty, is an error. *)
Theorem Parse_square_plane_complete :
  forall env dunName w h colStart rowStart squares rest d0 d,
    envParse env dunName w h colStart rowStart squares rest ->
    Parse env dunName d0 = Done d None ->
    (2 * (w * h) <= length rest)%nat.
Proof.
  intros env dunName w h colStart rowStart squares rest d0 d Henv Hres.
  rewrite (Parse_body _ _ _ _ _ _ _ _ Henv), (parseBody_planes _ _ _ _ _ d0 rest) in Hres.
  unfold bind at 1 in Hres.
  destruct (squaresRows squares w h colStart rowStart d0 rest) as [u d1 s1|e d1|q] eqn:Esq;
    rewrite (squaresRows_flat squares w h colStart rowStart d0 rest), gridBlocks_rowMajor in Esq.
  - apply squaresFlat_length in Esq. rewrite length_map, length_seq in Esq. exact Esq.
  - cbn [finish] in Hres. injection Hres as -> ->.
    exfalso. exact (squaresFlat_RRet _ _ _ _ _ _ Esq eq_refl).
  - discriminate.
Qed.

(** Parse_square_plane_complete on the 1x1 file holding one empty square. *)
Lemma Parse_square_plane_complete_witness :
  (2 * (1 * 1) <= length [Byte.x00; Byte.x00])%nat.
Proof.
  apply (Parse_square_plane_complete
           (envFile [Byte.x01; Byte.x00; Byte.x01; Byte.x00; Byte.x00; Byte.x00] 0 0 [sqA])
           "levels/l1data/a.dun" 1%nat 1%nat 0 0 [sqA] [Byte.x00; Byte.x00] New New).
  - exists "levels/l1data/a.dun", [Byte.x01; Byte.x00; Byte.x01; Byte.x00; Byte.x00; Byte.x00], "l1".
    repeat split; reflexivity.
  - reflexivity.
Defined.

(** ** The attributes [Parse] writes *)

Lemma keeps_parseBody_keys squares w h colStart rowStart :
  keeps (fun _ _ k => In k ["pillarNum"; "unknown"; "dunMonsterID"; "dunObjectID"; "transparency"])
        (parseBody squares w h colStart rowStart).
Proof.
  unfold parseBody. apply keeps_bind.
  { eapply keeps_weaken; [|apply keeps_squaresRows]. cbv beta. intros ? ? ? [-> _]. simpl. tauto. }
  intros _.
  repeat (apply keeps_bind; [eapply keeps_weaken; [|apply keeps_planeRows];
                             cbv beta; intros ? ? ? [-> _]; simpl; tauto|intros _]).
  apply keeps_ret.
Qed.

(** Full-stream [Parse], whatever it returns (short of a panic): the only
    attributes it changes are pillarNum, unknown, dunMonsterID, dunObjectID
    and transparency; every other attribute of every cell is left as it was. *)
Theorem Parse_keys_frame :
  forall env dunName d0 d err k x y,
    Parse env dunName d0 = Done d err ->
    ~ In k ["pillarNum"; "unknown"; "dunMonsterID"; "dunObjectID"; "transparency"] ->
    d x y !! k = d0 x y !! k.
Proof.
  intros env dunName d0 d err k x y Hres Hk. unfold Parse in Hres.
  destruct (GetPath env dunName) as [e|dunPath]; [injection Hres as <- _; reflexivity|].
  destruct (ReadFile env dunPath) as [e|data]; [injection Hres as <- _; reflexivity|].
  destruct (readHeader data) as [e|[[qw qh] rest]]; [injection Hres as <- _; reflexivity|].
  destruct (GetColStart env dunName) as [e|cs]; [injection Hres as <- _; reflexivity|].
  destruct (GetRowStart env dunName) as [e|rs]; [injection Hres as <- _; reflexivity|].
  destruct (GetLevelName env dunName) as [e|lvl]; [injection Hres as <- _; reflexivity|].
  destruct (TilParse env (String.append lvl ".til")) as [e|squares];
    [injection Hres as <- _; reflexivity|].
  pose proof (keeps_parseBody_keys squares (Z.to_nat qw) (Z.to_nat qh) cs rs d0 rest) as K.
  destruct (parseBody squares (Z.to_nat qw) (Z.to_nat qh) cs rs d0 rest) as [u d1 s1|e d1|p];
    cbn [finish] in Hres; try discriminate; injection Hres as <- _; apply K; exact Hk.
Qed.

(** Parse_keys_frame on the 1x1 file holding square 1: the cell (0, 0) has
    no dunItemID. *)
Lemma Parse_keys_frame_witness :
  placed New 0 0 sqA 0 0 !! "dunItemID" = New 0 0 !! "dunItemID".
Proof.
  apply (Parse_keys_frame
           (envFile [Byte.x01; Byte.x00; Byte.x01; Byte.x00; Byte.x01; Byte.x00] 0 0 [sqA])
           "levels/l1data/a.dun" New (placed New 0 0 sqA) None).
  - reflexivity.
  - simpl. intuition discriminate.
Defined.

(** ** The fixed-size [Parse]: frame, panics and success *)

Lemma colMajorBlock_range cc rc k :
  (k < cc * rc)%nat ->
  0 <= fst (colMajorBlock rc k) /\ fst (colMajorBlock rc k) + 1 < 2 * Z.of_nat cc /\
  0 <= snd (colMajorBlock rc k) /\ snd (colMajorBlock rc k) + 1 < 2 * Z.of_nat rc.
Proof.
  intros Hk. unfold colMajorBlock. cbn [fst snd].
  assert (Hrc : rc <> 0%nat) by (intros ->; lia).
  pose proof (Nat.div_mod_eq k rc). pose proof (Nat.mod_upper_bound k rc Hrc).
  assert (Hq : (k / rc < cc)%nat) by nia.
  lia.
Qed.

Lemma ParseMini_keeps env buf cc rc d0 d err k x y :
  ParseMini env buf (Z.of_nat cc) (Z.of_nat rc) d0 = Done d err ->
  ~ (k = "pillarNum" /\ 0 <= x < 2 * Z.of_nat cc /\ 0 <= y < 2 * Z.of_nat rc) ->
  d x y !! k = d0 x y !! k.
Proof.
  intros Hres Hk.
  destruct (TilParse env "l1.til") as [e|squares] eqn:Ht.
  { unfold ParseMini in Hres. rewrite Ht in Hres. injection Hres as <- _. reflexivity. }
  rewrite (ParseMini_flat _ _ _ _ _ _ Ht) in Hres.
  pose proof (keeps_miniFlat squares buf (map (fun k => (k, colMajorBlock rc k)) (seq 0 (cc * rc)))
                d0 []) as K.
  unfold bind in Hres.
  destruct (miniFlat squares buf _ d0 []) as [u d1 s1|e d1|p];
    cbn [finish ret] in Hres; try discriminate; injection Hres as <- _;
    apply K; intros (Hkp & st & He & Hc); apply Hk; (split; [exact Hkp|]);
    apply in_map_iff in He as (j & <- & Hj); apply in_seq in Hj;
    pose proof (colMajorBlock_range cc rc j ltac:(lia)) as R;
    unfold blockCells in Hc; cbn [snd] in Hc; lia.
Qed.

(** Fixed-size [Parse], whatever it returns (short of a panic): it changes
    only the pillarNum attribute, and only of cells with
    [0 <= col < 2*colCount] and [0 <= row < 2*rowCount]. *)
Theorem ParseMini_frame :
  forall env buf cc rc d0 d err k x y,
    ParseMini env buf (Z.of_nat cc) (Z.of_nat rc) d0 = Done d err ->
    ~ (k = "pillarNum" /\ 0 <= x < 2 * Z.of_nat cc /\ 0 <= y < 2 * Z.of_nat rc) ->
    d x y !! k = d0 x y !! k.
Proof. intros. eapply ParseMini_keeps; eassumption. Qed.

(** ParseMini_frame on a 2x2 buffer holding square 1 at index 1: cell
    (4, 0), outside the 4x4 area, keeps its (absent) pillarNum. *)
Lemma ParseMini_frame_witness :
  placed New 0 2 sqA 4 0 !! "pillarNum" = New 4 0 !! "pillarNum".
Proof.
  apply (ParseMini_frame (envFile [] 0 0 [sqA]) [Byte.x00; Byte.x01; Byte.x00; Byte.x00]
           2%nat 2%nat New (placed New 0 2 sqA) None).
  - reflexivity.
  - simpl. lia.
Defined.

Lemma noPanic_miniStep_grid squares buf e :
  blockInGrid (fst (snd e)) (snd (snd e)) = true -> noPanicAt PGrid (miniStep squares buf e).
Proof.
  destruct e as [k [c r]]. cbn [fst snd]. intros Hb d s. unfold miniStep.
  destruct (nth_error buf k); [apply noPanic_placeSquare; exact Hb|discriminate].
Qed.

Lemma noPanic_miniFlat_grid squares buf l :
  (forall e, In e l -> blockInGrid (fst (snd e)) (snd (snd e)) = true) ->
  noPanicAt PGrid (miniFlat squares buf l).
Proof.
  induction l as [|e l IH]; intros Hl; [apply noPanic_ret|].
  cbn [miniFlat]. apply noPanic_bind.
  - apply noPanic_miniStep_grid. apply Hl. left. reflexivity.
  - intros _. apply IH. intros e' He'. apply Hl. right. exact He'.
Qed.

Lemma colMajor_blockInGrid cc rc k :
  (2 * cc <= 112)%nat -> (2 * rc <= 112)%nat -> (k < cc * rc)%nat ->
  blockInGrid (fst (colMajorBlock rc k)) (snd (colMajorBlock rc k)) = true.
Proof.
  intros Hc Hr Hk. pose proof (colMajorBlock_range cc rc k Hk) as R.
  apply (blockInGrid_region (fun x y => 0 <= x < 2 * Z.of_nat cc /\ 0 <= y < 2 * Z.of_nat rc)).
  - intros x y [Hx Hy]. unfold inGrid, ColMax, RowMax.
    repeat (apply andb_true_intro; split); apply Z.leb_le || apply Z.ltb_lt; lia.
  - lia.
  - lia.
  - lia.
  - lia.
Qed.

Lemma placeSquare_panic_sites squares col row x d s q :
  placeSquare squares col row x d s = RPanic q -> q = PSquares \/ q = PGrid.
Proof.
  unfold placeSquare. destruct (x =? 0); [discriminate|].
  destruct (nthZ squares (x - 1)); [|intros E; injection E as <-; tauto].
  unfold bind, write.
  repeat match goal with |- context [if inGrid ?a ?b then _ else _] =>
    destruct (inGrid a b) end; intros E; try discriminate; injection E as <-; tauto.
Qed.

Lemma miniFlat_panic_sites squares buf l d s q :
  miniFlat squares buf l d s = RPanic q -> q = PSquares \/ q = PGrid \/ q = PBuffer.
Proof.
  revert d s. induction l as [|[k [c r]] l IH]; intros d s E; [discriminate|].
  cbn [miniFlat] in E. unfold bind at 1 in E.
  destruct (miniStep squares buf (k, (c, r)) d s) as [u d1 s1|e d1|q'] eqn:Es;
    [exact (IH _ _ E)|discriminate|].
  injection E as ->. unfold miniStep in Es.
  destruct (nth_error buf k) as [b|]; [|injection Es as <-; tauto].
  apply placeSquare_panic_sites in Es. tauto.
Qed.

(** Fixed-size [Parse] with [colCount, rowCount <= 56] (so that the
    [2*colCount x 2*rowCount] area fits the 112x112 grid) and a buffer of at
    least [colCount * rowCount] elements: its only possible runtime panic is
    the square-table lookup; it never indexes the grid or the buffer out of
    range. This is the case of [dungeonDump]'s call, 40x40 with a buffer of
    1600. *)
Theorem ParseMini_panics_only_squares :
  forall env buf cc rc d0 p,
    (2 * cc <= 112)%nat -> (2 * rc <= 112)%nat -> (cc * rc <= length buf)%nat ->
    ParseMini env buf (Z.of_nat cc) (Z.of_nat rc) d0 = Panicked p ->
    p = PSquares.
Proof.
  intros env buf cc rc d0 p Hc Hr Hl Hres.
  destruct (TilParse env "l1.til") as [e|squares] eqn:Ht.
  { unfold ParseMini in Hres. rewrite Ht in Hres. discriminate. }
  rewrite (ParseMini_flat _ _ _ _ _ _ Ht) in Hres.
  set (l := map (fun k => (k, colMajorBlock rc k)) (seq 0 (cc * rc))) in Hres.
  assert (Hbuf : miniFlat squares buf l d0 [] <> RPanic PBuffer).
  { apply miniFlat_no_buffer_panic. intros e He. subst l.
    apply in_map_iff in He as (j & <- & Hj). apply in_seq in Hj. simpl. lia. }
  assert (Hgrid : miniFlat squares buf l d0 [] <> RPanic PGrid).
  { apply noPanic_miniFlat_grid. intros e He. subst l.
    apply in_map_iff in He as (j & <- & Hj). apply in_seq in Hj. cbn [snd].
    apply (colMajor_blockInGrid cc); lia. }
  pose proof (miniFlat_panic_sites squares buf l d0 []) as Hother.
  unfold bind in Hres.
  destruct (miniFlat squares buf l d0 []) as [u d1 s1|e' d1|q] eqn:E;
    cbn [finish ret] in Hres; try discriminate.
  injection Hres as <-. destruct (Hother q eq_refl) as [ -> | [ -> | -> ] ];
    [reflexivity|exfalso; apply Hgrid; reflexivity|exfalso; apply Hbuf; reflexivity].
Qed.

(** ParseMini_panics_only_squares at [dungeonDump]'s size: a 1600-element
    buffer, 40x40, whose first square id (2) is beyond a one-square table. *)
Lemma ParseMini_panics_only_squares_witness :
  ParseMini (envFile [] 0 0 [sqA]) (Byte.x02 :: repeat Byte.x00 1599) (Z.of_nat 40) (Z.of_nat 40) New
  = Panicked PSquares /\ PSquares = PSquares.
Proof.
  split; [reflexivity|].
  apply (ParseMini_panics_only_squares (envFile [] 0 0 [sqA]) (Byte.x02 :: repeat Byte.x00 1599)
           40%nat 40%nat New PSquares).
  - lia.
  - lia.
  - apply Nat.leb_le. reflexivity.
  - reflexivity.
Defined.

Lemma nthZ_in_range {A} (l : list A) x :
  1 <= x <= Z.of_nat (length l) -> exists a, nthZ l (x - 1) = Some a.
Proof.
  intros Hx. unfold nthZ. destruct (Z.ltb_spec (x - 1) 0); [lia|].
  destruct (nth_error l (Z.to_nat (x - 1))) eqn:E; [eauto|].
  apply nth_error_None in E. lia.
Qed.

Lemma miniFlat_ok squares buf l d s :
  (forall e, In e l -> exists b, nth_error buf (fst e) = Some b /\
       byteZ b <= Z.of_nat (length squares) /\ blockInGrid (fst (snd e)) (snd (snd e)) = true) ->
  exists d', miniFlat squares buf l d s = ROk tt d' s.
Proof.
  revert d. induction l as [|[k [c r]] l IH]; intros d Hl; [eexists; reflexivity|].
  destruct (Hl (k, (c, r)) (or_introl eq_refl)) as (b & Hb & Hx & Hg). cbn [fst snd] in *.
  cbn [miniFlat]. unfold bind at 1, miniStep. rewrite Hb.
  assert (Hp : exists d1, placeSquare squares c r (byteZ b) d s = ROk tt d1 s).
  { destruct (Z.eq_dec (byteZ b) 0) as [H0|H0].
    - rewrite H0. eexists. apply placeSquare_zero.
    - assert (Hpos : 0 <= byteZ b) by (unfold byteZ; lia).
      destruct (nthZ_in_range squares (byteZ b)) as [square Hn]; [lia|].
      eexists. apply (placeSquare_ok _ _ _ _ _ _ _ H0 Hn Hg). }
  destruct Hp as [d1 ->]. apply IH. intros e He. apply Hl. right. exact He.
Qed.

(** Fixed-size [Parse] succeeds (returns nil, no panic) when the square
    table loads, [colCount, rowCount <= 56], the buffer has at least
    [colCount * rowCount] elements and each of those elements is 0 or at
    most the number of squares. *)
Theorem ParseMini_succeeds :
  forall env buf cc rc squares d0,
    TilParse env "l1.til" = inr squares ->
    (2 * cc <= 112)%nat -> (2 * rc <= 112)%nat -> (cc * rc <= length buf)%nat ->
    (forall k b, (k < cc * rc)%nat -> nth_error buf k = Some b ->
                 byteZ b <= Z.of_nat (length squares)) ->
    exists d, ParseMini env buf (Z.of_nat cc) (Z.of_nat rc) d0 = Done d None.
Proof.
  intros env buf cc rc squares d0 Ht Hc Hr Hl Hids.
  rewrite (ParseMini_flat _ _ _ _ _ _ Ht).
  destruct (miniFlat_ok squares buf (map (fun k => (k, colMajorBlock rc k)) (seq 0 (cc * rc))) d0 [])
    as [d E].
  - intros e He. apply in_map_iff in He as (j & <- & Hj). apply in_seq in Hj. cbn [fst snd].
    destruct (nth_error buf j) as [b|] eqn:Hb; [|apply nth_error_None in Hb; lia].
    exists b. split; [reflexivity|]. split; [apply (Hids j b); [lia|exact Hb]|].
    apply (colMajor_blockInGrid cc); lia.
  - exists d. unfold bind. rewrite E. reflexivity.
Qed.

(** ParseMini_succeeds at [dungeonDump]'s size: 40x40 over a buffer of 1600
    zeros but one 1, with a one-square table. *)
Lemma ParseMini_succeeds_witness :
  exists d, ParseMini (envFile [] 0 0 [sqA]) (Byte.x01 :: repeat Byte.x00 1599)
                      (Z.of_nat 40) (Z.of_nat 40) New = Done d None.
Proof.
  apply (ParseMini_succeeds (envFile [] 0 0 [sqA]) (Byte.x01 :: repeat Byte.x00 1599)
           40%nat 40%nat [sqA] New).
  - reflexivity.
  - lia.
  - lia.
  - apply Nat.leb_le. reflexivity.
  - intros [|k] b Hk Hb.
    + injection Hb as <-. apply Z.leb_le. reflexivity.
    + cbn [nth_error] in Hb. apply nth_error_In, repeat_spec in Hb. subst b.
      apply Z.leb_le. reflexivity.
Defined.

(** ** [ParsePillars] *)

Lemma flat_map_seq_S {A} (f : nat -> list A) a n :
  flat_map f (seq (S a) n) = flat_map (fun m => f (S m)) (seq a n).
Proof.
  revert a. induction n as [|n IH]; intros a; [reflexivity|].
  cbn [seq flat_map]. rewrite IH. reflexivity.
Qed.

Lemma pillarsRows_ok buf n col row i d out :
  (i + n <= length buf)%nat -> 0 <= col < 112 -> 0 <= row -> row + Z.of_nat n <= 112 ->
  exists d',
    pillarsRows buf n col row i d out
    = PillarsOk (i + n) d'
        (out ++ flat_map (fun m => pillarPrint col (row + Z.of_nat m) (nth (i + m) buf 0)) (seq 0 n)) /\
    forall x y, d' x y = if (x =? col) && (row <=? y) && (y <? row + Z.of_nat n)
                         then pillarUpdate (nth (i + Z.to_nat (y - row)) buf 0) (d x y)
                         else d x y.
Proof.
  revert row i d out. induction n as [|n IH]; intros row i d out Hl Hc Hr Hn.
  - exists d. split.
    + rewrite Nat.add_0_r, app_nil_r. reflexivity.
    + intros x y. destruct (Z.leb_spec row y), (Z.ltb_spec y (row + Z.of_nat 0));
        rewrite ?andb_false_r; reflexivity || lia.
  - destruct (nth_error buf i) as [v|] eqn:Hv; [|apply nth_error_None in Hv; lia].
    assert (Hnth : nth i buf 0 = v) by (apply nth_error_nth; exact Hv).
    assert (Hprint : flat_map (fun m => pillarPrint col (row + Z.of_nat m) (nth (i + m) buf 0))
                              (seq 0 (S n))
                     = pillarPrint col row v ++
                       flat_map (fun m => pillarPrint col (row + 1 + Z.of_nat m) (nth (S i + m) buf 0))
                                (seq 0 n)).
    { cbn [seq flat_map]. rewrite Nat.add_0_r, Z.add_0_r, Hnth, flat_map_seq_S. f_equal.
      apply flat_map_ext. intros m. rewrite Nat.add_succ_r. f_equal. lia. }
    cbn [pillarsRows]. rewrite Hv. destruct (Z.eqb_spec v 0) as [Hv0|Hv0].
    + destruct (IH (row + 1) (S i) d out) as (d' & E & Hd'); [lia|lia|lia|lia|].
      exists d'. split.
      * rewrite E, Hprint. unfold pillarPrint at 1. rewrite Hv0. cbn. f_equal. lia.
      * intros x y. rewrite Hd'. destruct (Z.eqb_spec x col) as [->|Hx]; cbn [andb]; [|reflexivity].
        destruct (Z.eq_dec y row) as [->|Hy].
        -- destruct (Z.leb_spec (row + 1) row); [lia|]. cbn [andb].
           destruct (Z.leb_spec row row); [|lia]. destruct (Z.ltb_spec row (row + Z.of_nat (S n))); [|lia].
           rewrite Z.sub_diag, Nat.add_0_r, Hnth, Hv0. reflexivity.
        -- destruct (Z.leb_spec (row + 1) y), (Z.leb_spec row y),
             (Z.ltb_spec y (row + 1 + Z.of_nat n)), (Z.ltb_spec y (row + Z.of_nat (S n)));
             cbn [andb]; try lia; try reflexivity.
           f_equal. f_equal. lia.
    + assert (Hg : inGrid col row = true).
      { unfold inGrid, ColMax, RowMax.
        repeat (apply andb_true_intro; split); apply Z.leb_le || apply Z.ltb_lt; lia. }
      rewrite Hg.
      destruct (IH (row + 1) (S i) (setAttr d col row "pillarNum" (v - 1)) (out ++ [(col, row, v - 1)]))
        as (d' & E & Hd'); [lia|lia|lia|lia|].
      exists d'. split.
      * rewrite E, Hprint. replace (S i + n)%nat with (i + S n)%nat by lia.
        rewrite <- app_assoc. do 3 f_equal.
        unfold pillarPrint. destruct (Z.eqb_spec v 0); [contradiction|reflexivity].
      * intros x y. rewrite Hd'. unfold setAttr.
        destruct (Z.eqb_spec x col) as [->|Hx]; cbn [andb]; [|reflexivity].
        destruct (Z.eq_dec y row) as [->|Hy].
        -- destruct (Z.leb_spec (row + 1) row); [lia|]. cbn [andb]. rewrite Z.eqb_refl.
           destruct (Z.leb_spec row row); [|lia]. destruct (Z.ltb_spec row (row + Z.of_nat (S n))); [|lia].
           cbn [andb]. rewrite Z.sub_diag, Nat.add_0_r, Hnth. unfold pillarUpdate.
           destruct (Z.eqb_spec v 0); [contradiction|reflexivity].
        -- destruct (Z.eqb_spec y row); [contradiction|]. rewrite ?andb_false_r.
           destruct (Z.leb_spec (row + 1) y), (Z.leb_spec row y),
             (Z.ltb_spec y (row + 1 + Z.of_nat n)), (Z.ltb_spec y (row + Z.of_nat (S n)));
             cbn [andb]; try lia; try reflexivity.
           f_equal. f_equal. lia.
Qed.

Lemma pillarsRows_short buf n col row i d out :
  (i <= length buf < i + n)%nat -> 0 <= col < 112 -> 0 <= row -> row + Z.of_nat n <= 112 ->
  exists out', pillarsRows buf n col row i d out = PillarsPanic PBuffer out'.
Proof.
  revert row i d out. induction n as [|n IH]; intros row i d out Hl Hc Hr Hn; [lia|].
  cbn [pillarsRows]. destruct (nth_error buf i) as [v|] eqn:Hv; [|eexists; reflexivity].
  assert (Hi : (i < length buf)%nat) by (apply nth_error_Some; rewrite Hv; discriminate).
  destruct (v =? 0); [apply IH; lia|].
  assert (Hg : inGrid col row = true).
  { unfold inGrid, ColMax, RowMax.
    repeat (apply andb_true_intro; split); apply Z.leb_le || apply Z.ltb_lt; lia. }
  rewrite Hg. apply IH; lia.
Qed.

Lemma pillarsCols_ok buf n col i d out :
  (i + 112 * n <= length buf)%nat -> 0 <= col -> col + Z.of_nat n <= 112 ->
  exists d',
    pillarsCols buf n col i d out
    = PillarsOk (i + 112 * n) d'
        (out ++ flat_map (fun c => flat_map (fun m => pillarPrint (col + Z.of_nat c) (Z.of_nat m)
                                                          (nth (i + 112 * c + m) buf 0))
                                            (seq 0 112)) (seq 0 n)) /\
    forall x y, d' x y = if (col <=? x) && (x <? col + Z.of_nat n) && (0 <=? y) && (y <? 112)
                         then pillarUpdate (nth (i + Z.to_nat (112 * (x - col) + y)) buf 0) (d x y)
                         else d x y.
Proof.
  revert col i d out. induction n as [|n IH]; intros col i d out Hl Hc Hn.
  - exists d. split.
    + rewrite Nat.mul_0_r, Nat.add_0_r, app_nil_r. reflexivity.
    + intros x y. destruct (Z.leb_spec col x), (Z.ltb_spec x (col + Z.of_nat 0));
        cbn [andb]; reflexivity || lia.
  - destruct (pillarsRows_ok buf 112 col 0 i d out) as (d1 & E1 & Hd1); [lia|lia|lia|lia|].
    destruct (IH (col + 1) (i + 112)%nat d1
                 (out ++ flat_map (fun m => pillarPrint col (0 + Z.of_nat m) (nth (i + m) buf 0))
                                  (seq 0 112)))
      as (d' & E & Hd'); [lia|lia|lia|].
    exists d'. split.
    + cbn [pillarsCols]. rewrite E1, E. f_equal; [lia|].
      rewrite <- app_assoc. f_equal. change (seq 0 (S n)) with (0%nat :: seq 1 n).
      cbn [flat_map]. f_equal.
      * apply flat_map_ext. intros m. f_equal; [lia|f_equal; lia].
      * rewrite flat_map_seq_S. apply flat_map_ext. intros c. apply flat_map_ext. intros m.
        f_equal; [lia|f_equal; lia].
    + intros x y. rewrite Hd', Hd1.
      destruct (Z.eq_dec x col) as [->|Hx].
      * destruct (Z.leb_spec (col + 1) col); [lia|]. cbn [andb]. rewrite Z.eqb_refl.
        destruct (Z.leb_spec col col); [|lia]. destruct (Z.ltb_spec col (col + Z.of_nat (S n))); [|lia].
        cbn [andb]. destruct (Z.leb_spec 0 y), (Z.ltb_spec y (0 + Z.of_nat 112)), (Z.ltb_spec y 112);
          cbn [andb]; try lia; try reflexivity.
        f_equal. f_equal. lia.
      * destruct (Z.eqb_spec x col); [contradiction|]. cbn [andb].
        destruct (Z.leb_spec (col + 1) x), (Z.leb_spec col x),
          (Z.ltb_spec x (col + 1 + Z.of_nat n)), (Z.ltb_spec x (col + Z.of_nat (S n)));
          cbn [andb]; try lia; try reflexivity.
        destruct (Z.leb_spec 0 y), (Z.ltb_spec y 112); cbn [andb]; try reflexivity.
        f_equal. f_equal. lia.
Qed.

Lemma pillarsCols_short buf n col i d out :
  (i <= length buf < i + 112 * n)%nat -> 0 <= col -> col + Z.of_nat n <= 112 ->
  exists out', pillarsCols buf n col i d out = PillarsPanic PBuffer out'.
Proof.
  revert col i d out. induction n as [|n IH]; intros col i d out Hl Hc Hn; [lia|].
  cbn [pillarsCols].
  destruct (le_lt_dec (i + 112) (length buf)) as [Hle|Hlt].
  - destruct (pillarsRows_ok buf 112 col 0 i d out) as (d1 & E1 & _); [lia|lia|lia|lia|].
    rewrite E1. apply IH; lia.
  - destruct (pillarsRows_short buf 112 col 0 i d out) as [out' E1]; [lia|lia|lia|lia|].
    rewrite E1. eauto.
Qed.

(** [ParsePillars] on a buffer of at least 112*112 ids: it returns nil; the
    cell [(col, row)] of the grid gets the id at index [112*col + row]
    (column-major): nothing for 0, else pillarNum = id - 1; cells outside
    the grid are untouched; the printed lines are the [(col, row, id - 1)]
    of the non-zero ids, column by column. *)
Theorem ParsePillars_decode :
  forall buf d,
    (112 * 112 <= length buf)%nat ->
    exists d' printed,
      ParsePillars buf d = PillarsOk (112 * 112) d' printed /\
      (forall x y, d' x y = if inGrid x y then pillarUpdate (nth (Z.to_nat (112 * x + y)) buf 0) (d x y)
                            else d x y) /\
      printed = flat_map (fun c => flat_map (fun r => pillarPrint (Z.of_nat c) (Z.of_nat r)
                                                        (nth (112 * c + r) buf 0))
                                            (seq 0 112)) (seq 0 112).
Proof.
  intros buf d Hl.
  destruct (pillarsCols_ok buf 112 0 0 d []) as (d' & E & Hd'); [lia|lia|lia|].
  exists d', (flat_map (fun c => flat_map (fun r => pillarPrint (Z.of_nat c) (Z.of_nat r)
                                                     (nth (112 * c + r) buf 0))
                                         (seq 0 112)) (seq 0 112)).
  split; [|split; [|reflexivity]].
  - unfold ParsePillars. rewrite E. reflexivity.
  - intros x y. rewrite Hd'. unfold inGrid, ColMax, RowMax.
    rewrite Z.add_0_l, Z.sub_0_r. reflexivity.
Qed.

(** ParsePillars_decode on a buffer whose first id is 5 and the others 0. *)
Lemma ParsePillars_decode_witness :
  exists d' printed,
    ParsePillars (5 :: repeat 0 (112 * 112 - 1)) New = PillarsOk (112 * 112) d' printed /\
    (forall x y, d' x y = if inGrid x y
                          then pillarUpdate (nth (Z.to_nat (112 * x + y)) (5 :: repeat 0 (112 * 112 - 1)) 0) (New x y)
                          else New x y) /\
    printed = flat_map (fun c => flat_map (fun r => pillarPrint (Z.of_nat c) (Z.of_nat r)
                                                      (nth (112 * c + r) (5 :: repeat 0 (112 * 112 - 1)) 0))
                                          (seq 0 112)) (seq 0 112).
Proof.
  apply ParsePillars_decode. apply Nat.leb_le. vm_compute. reflexivity.
Defined.

(** [ParsePillars] on a buffer of fewer than 112*112 ids does not return:
    it panics on the first missing index. *)
Theorem ParsePillars_short :
  forall buf d,
    (length buf < 112 * 112)%nat ->
    exists printed, ParsePillars buf d = PillarsPanic PBuffer printed.
Proof.
  intros buf d Hl. unfold ParsePillars. apply pillarsCols_short; lia.
Qed.

(** ParsePillars_short on an empty buffer. *)
Lemma ParsePillars_short_witness :
  exists printed, ParsePillars [] New = PillarsPanic PBuffer printed.
Proof.
  apply ParsePillars_short. simpl. lia.
Defined.

(** ** [Image]: the pillars fit the canvas *)

Lemma zseqFrom_In x start n : In x (zseqFrom start n) -> start <= x < start + Z.of_nat n.
Proof.
  revert start. induction n as [|n IH]; intros start H; [destruct H|].
  destruct H as [<-|H]; [lia|]. apply IH in H. lia.
Qed.

Lemma cellDraws_rect BW BH PW d mapWidth pillarHeight col row dc :
  In dc (cellDraws BW BH PW d mapWidth pillarHeight col row) ->
  dstRect dc = GetPillarRect BW BH PW col row mapWidth pillarHeight.
Proof.
  unfold cellDraws. destruct (d col row !! "pillarNum") as [pn|]; [|intros []].
  intros [<-|H]; [reflexivity|]. destruct (archOverlay pn); [|destruct H].
  destruct H as [<-|[]]. reflexivity.
Qed.

Lemma imageDraws_rect BW BH PW d mapWidth pillarHeight cc rc dc :
  In dc (imageDraws BW BH PW d mapWidth pillarHeight cc rc) ->
  exists col row, 0 <= col < Z.of_nat cc /\ 0 <= row < Z.of_nat rc /\
    dstRect dc = GetPillarRect BW BH PW col row mapWidth pillarHeight.
Proof.
  unfold imageDraws. intros H. apply in_flat_map in H as (row & Hr & H).
  apply in_flat_map in H as (col & Hc & H).
  apply zseqFrom_In in Hr, Hc. exists col, row. split; [lia|]. split; [lia|].
  exact (cellDraws_rect _ _ _ _ _ _ _ _ _ H).
Qed.

(** [Image], when it completes: with [0 <= PillarWidth <= 2*BlockWidth], an
    even [BlockHeight >= 0] and pillar heights [>= 0], every rectangle drawn
    lies inside the canvas [image.Rect(0, 0, mapWidth, mapHeight)]; no pillar
    or arch is clipped. *)
Theorem Image_draws_within_canvas :
  forall BW BH PW d arches decodeArches colCount rowCount pillars bounds draws nArches,
    0 <= BW -> 0 <= PW <= 2 * BW -> 0 <= BH -> Z.even BH = true ->
    (forall p, In p pillars -> 0 <= Height p) ->
    Image BW BH PW d arches decodeArches colCount rowCount pillars = ImgDone bounds draws nArches ->
    forall dc, In dc draws ->
      rMinX bounds <= rMinX (dstRect dc) /\ rMaxX (dstRect dc) <= rMaxX bounds /\
      rMinY bounds <= rMinY (dstRect dc) /\ rMaxY (dstRect dc) <= rMaxY bounds.
Proof.
  intros BW BH PW d arches decodeArches cc rc pillars bounds draws nArches
    HBW HPW HBH Heven Hh E dc Hdc.
  unfold Image in E.
  destruct (match arches with Some n => inr n | None => decodeArches end) as [err|n];
    [discriminate|].
  destruct (nthZ pillars 0) as [p0|] eqn:Hp0; [|discriminate].
  assert (Hp0h : 0 <= Height p0).
  { apply Hh. destruct pillars as [|q ps]; [discriminate|].
    unfold nthZ in Hp0. cbn in Hp0. injection Hp0 as ->. left. reflexivity. }
  set (mc := if rc >? cc then rc else cc) in E.
  match type of E with
  | match ?t with _ => _ end = _ => destruct t as [p|l] eqn:Ei; [discriminate|]
  end.
  injection E as <- <- _.
  apply imageRows_ok in Ei. subst l.
  apply imageDraws_rect in Hdc as (col & row & Hc & Hr & ->).
  assert (Hmc : Z.of_nat (Z.to_nat cc) <= mc /\ Z.of_nat (Z.to_nat rc) <= mc).
  { subst mc. destruct (Z.gtb_spec rc cc); lia. }
  assert (Hq : Z.quot (mc * BW + mc * BW) 2 = mc * BW).
  { replace (mc * BW + mc * BW) with ((mc * BW) * 2) by ring. apply Z.quot_mul. lia. }
  apply Z.even_spec in Heven as [hb ->].
  assert (Hh2 : Z.quot (2 * hb) 2 = hb) by (rewrite Z.mul_comm; apply Z.quot_mul; lia).
  unfold GetPillarRect, Rect. rewrite Hq, Hh2.
  set (minX := mc * BW - BW - row * BW + col * BW).
  set (minY := row * hb + col * hb).
  assert (HX : 0 <= minX /\ minX + PW <= mc * BW + mc * BW).
  { subst minX.
    assert (0 <= (mc - 1 - row) * BW) by (apply Z.mul_nonneg_nonneg; lia).
    assert (0 <= (mc - 1 - col) * BW) by (apply Z.mul_nonneg_nonneg; lia).
    assert (0 <= col * BW) by (apply Z.mul_nonneg_nonneg; lia).
    assert (0 <= row * BW) by (apply Z.mul_nonneg_nonneg; lia).
    nia. }
  assert (HY : 0 <= minY /\ minY + Height p0 <= mc * hb + mc * hb + (Height p0 - 2 * hb)).
  { subst minY.
    assert (0 <= (mc - 1 - row) * hb) by (apply Z.mul_nonneg_nonneg; lia).
    assert (0 <= (mc - 1 - col) * hb) by (apply Z.mul_nonneg_nonneg; lia).
    assert (0 <= col * hb) by (apply Z.mul_nonneg_nonneg; lia).
    assert (0 <= row * hb) by (apply Z.mul_nonneg_nonneg; lia).
    nia. }
  destruct (Z.gtb_spec minX (minX + PW)); [lia|].
  destruct (Z.gtb_spec minY (minY + Height p0)); [lia|].
  destruct (Z.gtb_spec 0 (mc * BW + mc * BW)); [lia|].
  destruct (Z.gtb_spec 0 (mc * hb + mc * hb + (Height p0 - 2 * hb))); [lia|].
  cbn. lia.
Qed.

(** Image_draws_within_canvas with the constants of the min package
    (BlockWidth 32, BlockHeight 32, PillarWidth 64) on a 2x2 grid holding
    one square. *)
Lemma Image_draws_within_canvas_witness :
  match Image 32 32 64 (placed New 0 0 sqA) (Some 8%nat) (inr 8%nat) 2 2
              (repeat {| Height := 100 |} 9%nat) with
  | ImgDone bounds draws _ =>
      draws <> [] /\
      forall dc, In dc draws ->
        rMinX bounds <= rMinX (dstRect dc) /\ rMaxX (dstRect dc) <= rMaxX bounds /\
        rMinY bounds <= rMinY (dstRect dc) /\ rMaxY (dstRect dc) <= rMaxY bounds
  | _ => False
  end.
Proof.
  destruct (Image 32 32 64 (placed New 0 0 sqA) (Some 8%nat) (inr 8%nat) 2 2
              (repeat {| Height := 100 |} 9%nat)) as [bounds draws n|err|p] eqn:E;
    [|vm_compute in E; discriminate|vm_compute in E; discriminate].
  split.
  - vm_compute in E. injection E as _ <- _. discriminate.
  - apply (Image_draws_within_canvas 32 32 64 (placed New 0 0 sqA) (Some 8%nat) (inr 8%nat) 2 2
             (repeat {| Height := 100 |} 9%nat) bounds draws n).
    + lia.
    + lia.
    + lia.
    + reflexivity.
    + intros p Hp. apply repeat_spec in Hp. subst p. simpl. lia.
    + exact E.
Defined.

(** ** [dungeonDump]: parse, then draw *)

Lemma zseqFrom_In_intro x start n : start <= x < start + Z.of_nat n -> In x (zseqFrom start n).
Proof.
  revert start. induction n as [|n IH]; intros start H; [lia|].
  cbn [zseqFrom]. destruct (Z.eq_dec x start) as [->|Hx]; [left; reflexivity|].
  right. apply IH. lia.
Qed.

(** [dungeonDump] parses into a fresh [dunmini.New()] grid with
    [Parse(dun, colCount, rowCount)] and draws it with
    [Image(colCount*2, rowCount*2, ...)]: when both complete, every cell
    [(x, y)] holding a pillarNum [pn] lies in the drawn area, and is drawn at
    its own rectangle [GetPillarRect(x, y, mapWidth, pillarHeight)]
    ([mapWidth] from [maxCount = max(colCount*2, rowCount*2)],
    [pillarHeight = pillars[0].Height()]), with the raster of pillar [pn] and
    [draw.Over]. *)
Theorem dungeonDump_draws_every_pillar :
  forall env buf cc rc d BW BH PW arches decodeArches pillars bounds draws nArches x y pn,
    ParseMini env buf (Z.of_nat cc) (Z.of_nat rc) New = Done d None ->
    Image BW BH PW d arches decodeArches (Z.of_nat cc * 2) (Z.of_nat rc * 2) pillars
      = ImgDone bounds draws nArches ->
    d x y !! "pillarNum" = Some pn ->
    let maxCount := if Z.of_nat rc * 2 >? Z.of_nat cc * 2 then Z.of_nat rc * 2
                    else Z.of_nat cc * 2 in
    let mapWidth := maxCount * BW + maxCount * BW in
    0 <= x < Z.of_nat cc * 2 /\ 0 <= y < Z.of_nat rc * 2 /\
    exists p0, nthZ pillars 0 = Some p0 /\
      In {| dstRect := GetPillarRect BW BH PW x y mapWidth (Height p0);
            src := PillarImage pn; op := Over |} draws.
Proof.
  intros env buf cc rc d BW BH PW arches decodeArches pillars bounds draws nArches x y pn
    Hp Himg Hpn maxCount mapWidth.
  assert (Hreg : 0 <= x < 2 * Z.of_nat cc /\ 0 <= y < 2 * Z.of_nat rc).
  { destruct (Z_le_dec 0 x), (Z_lt_dec x (2 * Z.of_nat cc)),
      (Z_le_dec 0 y), (Z_lt_dec y (2 * Z.of_nat rc)); try lia;
    exfalso; rewrite (ParseMini_keeps _ _ _ _ _ _ _ _ _ _ Hp) in Hpn by lia;
    unfold New in Hpn; rewrite lookup_empty in Hpn; discriminate. }
  split; [lia|]. split; [lia|].
  unfold Image in Himg.
  destruct (match arches with Some n => inr n | None => decodeArches end) as [err|n];
    [discriminate|].
  destruct (nthZ pillars 0) as [p0|] eqn:Hp0; [|discriminate].
  match type of Himg with
  | match ?t with _ => _ end = _ => destruct t as [p|l] eqn:Ei; [discriminate|]
  end.
  injection Himg as _ <- _.
  apply imageRows_ok in Ei. subst l.
  exists p0. split; [reflexivity|].
  unfold imageDraws. apply in_flat_map. exists y. split.
  { apply zseqFrom_In_intro. lia. }
  apply in_flat_map. exists x. split.
  { apply zseqFrom_In_intro. lia. }
  unfold cellDraws. rewrite Hpn. left. reflexivity.
Qed.

(** dungeonDump_draws_every_pillar on a 1x1 buffer holding square 1: the
    cell (1, 1) holds pillar 8, whose raster is drawn at the cell's own
    rectangle. *)
Lemma dungeonDump_draws_every_pillar_witness :
  match Image 32 32 64 (placed New 0 0 sqA) (Some 8%nat) (inr 8%nat) (Z.of_nat 1 * 2) (Z.of_nat 1 * 2)
              (repeat {| Height := 100 |} 9%nat) with
  | ImgDone bounds draws _ =>
      0 <= 1 < Z.of_nat 1 * 2 /\ 0 <= 1 < Z.of_nat 1 * 2 /\
      exists p0, nthZ (repeat {| Height := 100 |} 9%nat) 0 = Some p0 /\
        In {| dstRect := GetPillarRect 32 32 64 1 1
                           ((if Z.of_nat 1 * 2 >? Z.of_nat 1 * 2 then Z.of_nat 1 * 2
                             else Z.of_nat 1 * 2) * 32 +
                            (if Z.of_nat 1 * 2 >? Z.of_nat 1 * 2 then Z.of_nat 1 * 2
                             else Z.of_nat 1 * 2) * 32) (Height p0);
              src := PillarImage 8; op := Over |} draws
  | _ => False
  end.
Proof.
  destruct (Image 32 32 64 (placed New 0 0 sqA) (Some 8%nat) (inr 8%nat) (Z.of_nat 1 * 2) (Z.of_nat 1 * 2)
              (repeat {| Height := 100 |} 9%nat)) as [bounds draws n|err|p] eqn:E;
    [|vm_compute in E; discriminate|vm_compute in E; discriminate].
  apply (dungeonDump_draws_every_pillar (envFile [] 0 0 [sqA]) [Byte.x01] 1%nat 1%nat
           (placed New 0 0 sqA) 32 32 64 (Some 8%nat) (inr 8%nat) (repeat {| Height := 100 |} 9%nat)
           bounds draws n 1 1 8).
  - reflexivity.
  - exact E.
  - reflexivity.
Defined.

(** ** [Image]: what a completed canvas implies *)

Lemma imageCols_inr BW BH PW d pillars nArches mapWidth pillarHeight n col row l :
  imageCols BW BH PW d pillars nArches mapWidth pillarHeight n col row = inr l ->
  forall c, col <= c < col + Z.of_nat n ->
    exists l', drawCell BW BH PW d pillars nArches mapWidth pillarHeight c row = inr l'.
Proof.
  revert col l. induction n as [|n IH]; intros col l E c Hc; [lia|].
  cbn [imageCols] in E. apply appendDraws_ok in E as (l1 & l2 & E1 & E2 & _).
  destruct (Z.eq_dec c col) as [ -> | Hne ]; [eauto|].
  apply (IH (col + 1) l2 E2). lia.
Qed.

Lemma imageRows_inr BW BH PW d pillars nArches mapWidth pillarHeight cc n row l :
  imageRows BW BH PW d pillars nArches mapWidth pillarHeight cc n row = inr l ->
  forall c r, 0 <= c < Z.of_nat cc -> row <= r < row + Z.of_nat n ->
    exists l', drawCell BW BH PW d pillars nArches mapWidth pillarHeight c r = inr l'.
Proof.
  revert row l. induction n as [|n IH]; intros row l E c r Hc Hr; [lia|].
  cbn [imageRows] in E. apply appendDraws_ok in E as (l1 & l2 & E1 & E2 & _).
  destruct (Z.eq_dec r row) as [ -> | Hne ].
  - exact (imageCols_inr _ _ _ _ _ _ _ _ _ _ _ _ E1 c Hc).
  - apply (IH (row + 1) l2 E2); lia.
Qed.

(** [Image] checks nothing and returns no error: when it completes (no
    panic, no [log.Fatalln]), the arches were loaded (from the cache if set,
    else decoded), the pillar slice is not empty, and every cell of the
    [colCount x rowCount] area lies in the 112x112 grid, and its pillarNum,
    if any, is an index of [pillars] whose arch overlay, if any, is an index
    of [arches]. *)
Theorem Image_completes_valid :
  forall BW BH PW d arches decodeArches colCount rowCount pillars bounds draws nArches,
    Image BW BH PW d arches decodeArches colCount rowCount pillars = ImgDone bounds draws nArches ->
    match arches with Some n => inr n | None => decodeArches end = inr nArches /\
    pillars <> [] /\
    forall col row, 0 <= col < colCount -> 0 <= row < rowCount ->
      inGrid col row = true /\
      forall pn, d col row !! "pillarNum" = Some pn ->
        (exists p, nthZ pillars pn = Some p) /\
        forall a, archOverlay pn = Some a -> 0 <= a < Z.of_nat nArches.
Proof.
  intros BW BH PW d arches decodeArches cc rc pillars bounds draws nArches E.
  unfold Image in E.
  destruct (match arches with Some n => inr n | None => decodeArches end) as [err|n] eqn:Hl;
    [discriminate|].
  destruct (nthZ pillars 0) as [p0|] eqn:Hp0; [|discriminate].
  match type of E with
  | match ?t with _ => _ end = _ => destruct t as [p|l] eqn:Ei; [discriminate|]
  end.
  injection E as _ _ <-. split; [reflexivity|]. split.
  { intros ->. discriminate. }
  intros col row Hc Hr.
  destruct (imageRows_inr _ _ _ _ _ _ _ _ _ _ _ _ Ei col row ltac:(lia) ltac:(lia)) as [l' Ed].
  unfold drawCell in Ed. destruct (inGrid col row); [|discriminate]. split; [reflexivity|].
  intros pn Hpn. rewrite Hpn in Ed.
  destruct (nthZ pillars pn) as [q|]; [|discriminate]. split; [eauto|].
  intros a Ha. rewrite getArchID_overlay, Ha in Ed.
  destruct (Z.leb_spec 0 a), (Z.ltb_spec a (Z.of_nat n)); cbn in Ed; try discriminate; lia.
Qed.

(** Image_completes_valid on a 2x2 grid holding one square, with the arch
    cache already loaded. *)
Lemma Image_completes_valid_witness :
  match Image 32 32 64 (placed New 0 0 sqA) (Some 8%nat) (inr 8%nat) 2 2
              (repeat {| Height := 100 |} 9%nat) with
  | ImgDone bounds draws n =>
      (inr 8%nat : goerror + nat) = inr n /\
      repeat {| Height := 100 |} 9%nat <> [] /\
      forall col row, 0 <= col < 2 -> 0 <= row < 2 ->
        inGrid col row = true /\
        forall pn, placed New 0 0 sqA col row !! "pillarNum" = Some pn ->
          (exists p, nthZ (repeat {| Height := 100 |} 9%nat) pn = Some p) /\
          forall a, archOverlay pn = Some a -> 0 <= a < Z.of_nat n
  | _ => False
  end.
Proof.
  destruct (Image 32 32 64 (placed New 0 0 sqA) (Some 8%nat) (inr 8%nat) 2 2
              (repeat {| Height := 100 |} 9%nat)) as [bounds draws n|err|p] eqn:E;
    [|vm_compute in E; discriminate|vm_compute in E; discriminate].
  exact (Image_completes_valid 32 32 64 (placed New 0 0 sqA) (Some 8%nat) (inr 8%nat) 2 2
           (repeat {| Height := 100 |} 9%nat) bounds draws n E).
Defined.

(** ** An empty map *)

Lemma planeRows_empty key i n w colStart row d s :
  (n = 0 \/ w = 0)%nat -> planeRows key i n w colStart row d s = ROk tt d s.
Proof.
  revert i row. induction n as [|n IH]; intros i row Hnw; [reflexivity|].
  destruct Hnw as [H | ->]; [discriminate|].
  cbn [planeRows planeRow]. unfold bind at 1, ret. apply IH. right. reflexivity.
Qed.

(** Full-stream [Parse] of a file whose header gives a zero quad width or
    height: it succeeds and leaves the grid as it was, whatever follows the
    header. *)
Theorem Parse_empty_map :
  forall env dunName w h colStart rowStart squares rest d0,
    envParse env dunName w h colStart rowStart squares rest ->
    (w = 0 \/ h = 0)%nat ->
    Parse env dunName d0 = Done d0 None.
Proof.
  intros env dunName w h colStart rowStart squares rest d0 Henv Hwh.
  rewrite (Parse_body _ _ _ _ _ _ _ _ Henv), (parseBody_squares _ _ _ _ _ d0 rest).
  assert (H0 : (w * h = 0)%nat) by (destruct Hwh as [ -> | -> ]; lia).
  assert (Hp : (2 * h = 0 \/ 2 * w = 0)%nat) by lia.
  rewrite H0. cbn [seq map squaresFlat]. unfold bind at 1, ret at 1.
  unfold bind. rewrite !planeRows_empty by exact Hp. reflexivity.
Qed.

(** Parse_empty_map on a file declaring a 0x3 map followed by stray bytes. *)
Lemma Parse_empty_map_witness :
  Parse (envFile [Byte.x00; Byte.x00; Byte.x03; Byte.x00; Byte.x07] 0 0 [sqA])
        "levels/l1data/a.dun" New = Done New None.
Proof.
  apply (Parse_empty_map (envFile [Byte.x00; Byte.x00; Byte.x03; Byte.x00; Byte.x07] 0 0 [sqA])
           "levels/l1data/a.dun" 0%nat 3%nat 0 0 [sqA] [Byte.x07]).
  - exists "levels/l1data/a.dun", [Byte.x00; Byte.x00; Byte.x03; Byte.x00; Byte.x07], "l1".
    repeat split; reflexivity.
  - left. reflexivity.
Defined.
